(** * gitype: ingestion of posts and links (package [data])

    A shallow embedding of the loaders of package [data]: [loadLinks] with
    [Link.sanitize], and [loadPosts], [loadPost], [checkPostsDup] and
    [sortPosts].  Slices are lists read and written by index, Go's
    [(value, error)] results are sums with the error on the left, and the
    ordering routine of Go's [sort] package that [sortPosts] calls is
    embedded with it, since the published order depends on how that routine
    uses the comparison. *)

From Stdlib Require Import Ascii String.
From stdpp Require Import base tactics option list numbers strings pretty.
From stdpp Require Import sorting.

Open Scope string_scope.
Open Scope nat_scope.

(** ** Package [sort]: [SliceStable]

    [sort.SliceStable(x, less)] runs [stable] over the pair of the caller's
    [less] and a swapper for the slice.  The slice is a [list A]; reading or
    swapping an index outside it panics in Go and is [None] here, as is a
    loop that runs out of the iterations it is given.  Indices are Go [int]s
    that stay between 0 and the slice length, hence [nat]; [uint(i+j) >> 1]
    is the halved sum.  The functions follow the library's [stable],
    [insertionSort], [symMerge], [rotate] and [swapRange], with the direct
    insertion [symMerge] does when one of the two runs is a single
    element. *)
Module gosort.
Section Slice.
Context {A : Type}.

(** The caller's comparison, on the elements at two indices. *)
Variable less : A → A → bool.

(** [data.Less(i, j)]: the closure reads the slice at [i] and [j]. *)
Definition Less (data : list A) (i j : nat) : option bool :=
  x ← data !! i; y ← data !! j; Some (less x y).

(** [data.Swap(i, j)]: [data[i], data[j] = data[j], data[i]]. *)
Definition Swap (i j : nat) (data : list A) : option (list A) :=
  x ← data !! i; y ← data !! j; Some (<[j:=x]> (<[i:=y]> data)).

(** [for k := k0; ...; k++ { body }] with a known number of rounds. *)
Fixpoint forUp (count k : nat) (body : nat → list A → option (list A))
    (data : list A) : option (list A) :=
  match count with
  | 0 => Some data
  | S c => data' ← body k data; forUp c (S k) body data'
  end.

(** [for k := k0; ...; k-- { body }] with a known number of rounds. *)
Fixpoint forDown (count k : nat) (body : nat → list A → option (list A))
    (data : list A) : option (list A) :=
  match count with
  | 0 => Some data
  | S c => data' ← body k data; forDown c (k - 1) body data'
  end.

(** The inner loop of [insertionSort]:
    [for j := i; j > a && data.Less(j, j-1); j-- { data.Swap(j, j-1) }]. *)
Fixpoint insertionInner (a j : nat) (data : list A) : option (list A) :=
  match j with
  | 0 => Some data
  | S j' =>
      if a <? j then
        c ← Less data j j';
        if c : bool then data' ← Swap j j' data; insertionInner a j' data'
        else Some data
      else Some data
  end.

(** [insertionSort(data, a, b)]: [for i := a + 1; i < b; i++ { ... }]. *)
Definition insertionSort (a b : nat) (data : list A) : option (list A) :=
  forUp (b - (a + 1)) (a + 1) (insertionInner a) data.

(** [swapRange(data, a, b, n)]:
    [for i := 0; i < n; i++ { data.Swap(a+i, b+i) }]. *)
Definition swapRange (a b n : nat) (data : list A) : option (list A) :=
  forUp n 0 (λ i, Swap (a + i) (b + i)) data.

(** The loop of [rotate] on [i] and [j], followed by the closing
    [swapRange(data, m-i, m, i)] once [i == j]. *)
Fixpoint rotateLoop (fuel i j m : nat) (data : list A) : option (list A) :=
  if i =? j then swapRange (m - i) m i data
  else
    match fuel with
    | 0 => None
    | S f =>
        if j <? i then
          data' ← swapRange (m - i) m j data;
          rotateLoop f (i - j) j m data'
        else
          data' ← swapRange (m - i) (m + j - i) i data;
          rotateLoop f i (j - i) m data'
    end.

(** [rotate(data, a, m, b)] with [i := m - a] and [j := b - m]. *)
Definition rotate (a m b : nat) (data : list A) : option (list A) :=
  rotateLoop (b - a) (m - a) (b - m) m data.

(** The three binary searches of [symMerge] share one shape:
    [for i < j { h := int(uint(i+j) >> 1); if right(h) { i = h + 1 } else
    { j = h } }], leaving the answer in [i]. *)
Fixpoint searchLoop (fuel : nat) (right : nat → option bool) (i j : nat)
    : option nat :=
  if i <? j then
    match fuel with
    | 0 => None
    | S f =>
        let h := (i + j) / 2 in
        c ← right h;
        if c : bool then searchLoop f right (h + 1) j
        else searchLoop f right i h
    end
  else Some i.

(** [symMerge(data, a, m, b)] merges the runs [data[a:m]] and [data[m:b]]:
    a single element on either side is inserted directly, otherwise the
    runs are split around the middle, rotated, and the halves merged. *)
Fixpoint symMerge (fuel a m b : nat) (data : list A) : option (list A) :=
  match fuel with
  | 0 => None
  | S f =>
      if m - a =? 1 then
        i ← searchLoop (b - m) (λ h, Less data h a) m b;
        forUp (i - 1 - a) a (λ k, Swap k (k + 1)) data
      else if b - m =? 1 then
        i ← searchLoop (m - a) (λ h, negb <$> Less data m h) a m;
        forDown (m - i) m (λ k, Swap k (k - 1)) data
      else
        let mid := (a + b) / 2 in
        let n := mid + m in
        let '(start, r) := if mid <? m then (n - b, mid) else (a, m) in
        let p := n - 1 in
        start ← searchLoop (r - start)
                  (λ c, negb <$> Less data (p - c) c) start r;
        let end_ := n - start in
        data1 ← (if (start <? m) && (m <? end_)
                 then rotate start m end_ data else Some data);
        data2 ← (if (a <? start) && (start <? mid)
                 then symMerge f a start mid data1 else Some data1);
        if (mid <? end_) && (end_ <? b)
        then symMerge f mid end_ b data2 else Some data2
  end.

(** First loop of [stable]:
    [for b <= n { insertionSort(data, a, b); a = b; b += blockSize }];
    the value of [a] on leaving is returned with the slice. *)
Fixpoint insertionBlocks (fuel a b blockSize n : nat) (data : list A)
    : option (nat * list A) :=
  if b <=? n then
    match fuel with
    | 0 => None
    | S f =>
        data' ← insertionSort a b data;
        insertionBlocks f b (b + blockSize) blockSize n data'
    end
  else Some (a, data).

(** Inner loop of the merge passes:
    [for b <= n { symMerge(data, a, a+blockSize, b); a = b;
    b += 2 * blockSize }]. *)
Fixpoint mergeBlocks (fuel a b blockSize n : nat) (data : list A)
    : option (nat * list A) :=
  if b <=? n then
    match fuel with
    | 0 => None
    | S f =>
        data' ← symMerge (b - a) a (a + blockSize) b data;
        mergeBlocks f b (b + 2 * blockSize) blockSize n data'
    end
  else Some (a, data).

(** Outer loop of the merge passes: [for blockSize < n { ...;
    if m := a + blockSize; m < n { symMerge(data, a, m, n) };
    blockSize *= 2 }]. *)
Fixpoint mergePasses (fuel blockSize n : nat) (data : list A)
    : option (list A) :=
  if blockSize <? n then
    match fuel with
    | 0 => None
    | S f =>
        '(a, data1) ← mergeBlocks n 0 (2 * blockSize) blockSize n data;
        let m := a + blockSize in
        data2 ← (if m <? n then symMerge (n - a) a m n data1
                 else Some data1);
        mergePasses f (blockSize * 2) n data2
    end
  else Some data.

(** [stable(data, n)] with [blockSize := 20]. *)
Definition stable (n : nat) (data : list A) : option (list A) :=
  let blockSize := 20 in
  '(a, data1) ← insertionBlocks n 0 blockSize blockSize n data;
  data2 ← insertionSort a n data1;
  mergePasses n blockSize n data2.

(** [SliceStable(x, less)]: [stable] over the whole slice. *)
Definition SliceStable (data : list A) : option (list A) :=
  stable (length data) data.

(** [keeps n f]: on a slice of [n] elements the step [f] returns, with the
    same elements in some order. *)
Definition keeps (n : nat) (f : list A → option (list A)) : Prop :=
  ∀ data, length data = n →
    ∃ data', f data = Some data' ∧ length data' = n ∧ data' ≡ₚ data.

End Slice.
End gosort.

(** ** Package [time]

    A [time.Time] is the instant it denotes, counted from Go's zero time
    (January 1, year 1, 00:00:00 UTC), which is the zero value of the type. *)
Module time.

Definition Time : Type := Z.

Definition zero : Time := 0%Z.

(** [t.After(u)] reports whether the instant [t] is after [u]. *)
Definition After (t u : Time) : bool := (u <? t)%Z.

End time.

(** ** Package [helper]: errors

    [helper.FieldError] names a file, a field and a message.  A Go [error]
    is either such a field error or any other error, kept by its text. *)
Module helper.

Record FieldError : Type := mkFieldError {
  File : string;
  Message : string;
  Field : string
}.

Inductive error : Type :=
| IsFieldError (e : FieldError)
| OtherError (msg : string).

End helper.

(** ** Package [path]: where the files of a site live *)
Module path.

Record Path : Type := mkPath {
  PostsDir : string;
  MetaLinksFile : string;
  PostMetaPath : string → string;
  PostContentPath : string → string
}.

End path.

(** ** The records of package [data] *)
Module Author.

Record t : Type := mk {
  Name : string;
  URL : string;
  Email : string;
  Avatar : string
}.

End Author.

Module Link.

Record t : Type := mk {
  Icon : string;
  Title : string;
  Rel : string;
  URL : string;
  Text : string
}.

(** [(link *Link) sanitize()]: the text is checked before the address. *)
Definition sanitize (link : t) : option helper.FieldError :=
  if String.length (Text link) =? 0 then
    Some (helper.mkFieldError "" "不能为空" "text")
  else if String.length (URL link) =? 0 then
    Some (helper.mkFieldError "" "不能为空" "url")
  else None.

End Link.

(** [Post], with the type of tags left open: it is declared elsewhere in
    the package and no loader below fills [Tags]. *)
Module Post.

Record t {Tag : Type} : Type := mk {
  Slug : string;
  Title : string;
  HTMLTitle : string;
  Created : time.Time;
  Modified : time.Time;
  Tags : list Tag;
  Summary : string;
  Content : string;
  TagsString : string;
  Permalink : string;
  Outdated : string;
  Order : string;
  Draft : bool;
  Author : option Author.t;
  License : option Link.t;
  Template : string;
  Keywords : string;
  SearchTitle : string;
  SearchContent : string
}.
Arguments t : clear implicits.
Arguments mk {Tag}.

(** [&Post{}]: every field at its zero value. *)
Definition zero {Tag : Type} : t Tag :=
  mk "" "" "" time.zero time.zero [] "" "" "" "" "" "" false None None
     "" "" "" "".

(** Field assignments [post.F = v]. *)
Definition setSlug {Tag : Type} (v : string) (p : t Tag) : t Tag :=
  {| Slug := v; Title := Title p; HTMLTitle := HTMLTitle p;
     Created := Created p; Modified := Modified p; Tags := Tags p;
     Summary := Summary p; Content := Content p;
     TagsString := TagsString p; Permalink := Permalink p;
     Outdated := Outdated p; Order := Order p; Draft := Draft p;
     Author := Author p; License := License p; Template := Template p;
     Keywords := Keywords p; SearchTitle := SearchTitle p;
     SearchContent := SearchContent p |}.

Definition setContent {Tag : Type} (v : string) (p : t Tag) : t Tag :=
  {| Slug := Slug p; Title := Title p; HTMLTitle := HTMLTitle p;
     Created := Created p; Modified := Modified p; Tags := Tags p;
     Summary := Summary p; Content := v; TagsString := TagsString p;
     Permalink := Permalink p; Outdated := Outdated p; Order := Order p;
     Draft := Draft p; Author := Author p; License := License p;
     Template := Template p; Keywords := Keywords p;
     SearchTitle := SearchTitle p; SearchContent := SearchContent p |}.

Definition setCreated {Tag : Type} (v : time.Time) (p : t Tag) : t Tag :=
  {| Slug := Slug p; Title := Title p; HTMLTitle := HTMLTitle p;
     Created := v; Modified := Modified p; Tags := Tags p;
     Summary := Summary p; Content := Content p;
     TagsString := TagsString p; Permalink := Permalink p;
     Outdated := Outdated p; Order := Order p; Draft := Draft p;
     Author := Author p; License := License p; Template := Template p;
     Keywords := Keywords p; SearchTitle := SearchTitle p;
     SearchContent := SearchContent p |}.

Definition setPermalink {Tag : Type} (v : string) (p : t Tag) : t Tag :=
  {| Slug := Slug p; Title := Title p; HTMLTitle := HTMLTitle p;
     Created := Created p; Modified := Modified p; Tags := Tags p;
     Summary := Summary p; Content := Content p;
     TagsString := TagsString p; Permalink := v; Outdated := Outdated p;
     Order := Order p; Draft := Draft p; Author := Author p;
     License := License p; Template := Template p;
     Keywords := Keywords p; SearchTitle := SearchTitle p;
     SearchContent := SearchContent p |}.

Definition setModified {Tag : Type} (v : time.Time) (p : t Tag) : t Tag :=
  {| Slug := Slug p; Title := Title p; HTMLTitle := HTMLTitle p;
     Created := Created p; Modified := v; Tags := Tags p;
     Summary := Summary p; Content := Content p;
     TagsString := TagsString p; Permalink := Permalink p;
     Outdated := Outdated p; Order := Order p; Draft := Draft p;
     Author := Author p; License := License p; Template := Template p;
     Keywords := Keywords p; SearchTitle := SearchTitle p;
     SearchContent := SearchContent p |}.

Definition setHTMLTitle {Tag : Type} (v : string) (p : t Tag) : t Tag :=
  {| Slug := Slug p; Title := Title p; HTMLTitle := v;
     Created := Created p; Modified := Modified p; Tags := Tags p;
     Summary := Summary p; Content := Content p;
     TagsString := TagsString p; Permalink := Permalink p;
     Outdated := Outdated p; Order := Order p; Draft := Draft p;
     Author := Author p; License := License p; Template := Template p;
     Keywords := Keywords p; SearchTitle := SearchTitle p;
     SearchContent := SearchContent p |}.

Definition setKeywords {Tag : Type} (v : string) (p : t Tag) : t Tag :=
  {| Slug := Slug p; Title := Title p; HTMLTitle := HTMLTitle p;
     Created := Created p; Modified := Modified p; Tags := Tags p;
     Summary := Summary p; Content := Content p;
     TagsString := TagsString p; Permalink := Permalink p;
     Outdated := Outdated p; Order := Order p; Draft := Draft p;
     Author := Author p; License := License p; Template := Template p;
     Keywords := v; SearchTitle := SearchTitle p;
     SearchContent := SearchContent p |}.

Definition setTemplate {Tag : Type} (v : string) (p : t Tag) : t Tag :=
  {| Slug := Slug p; Title := Title p; HTMLTitle := HTMLTitle p;
     Created := Created p; Modified := Modified p; Tags := Tags p;
     Summary := Summary p; Content := Content p;
     TagsString := TagsString p; Permalink := Permalink p;
     Outdated := Outdated p; Order := Order p; Draft := Draft p;
     Author := Author p; License := License p; Template := v;
     Keywords := Keywords p; SearchTitle := SearchTitle p;
     SearchContent := SearchContent p |}.

Definition setOrder {Tag : Type} (v : string) (p : t Tag) : t Tag :=
  {| Slug := Slug p; Title := Title p; HTMLTitle := HTMLTitle p;
     Created := Created p; Modified := Modified p; Tags := Tags p;
     Summary := Summary p; Content := Content p;
     TagsString := TagsString p; Permalink := Permalink p;
     Outdated := Outdated p; Order := v; Draft := Draft p;
     Author := Author p; License := License p; Template := Template p;
     Keywords := Keywords p; SearchTitle := SearchTitle p;
     SearchContent := SearchContent p |}.

Definition setSearchContent {Tag : Type} (v : string) (p : t Tag) : t Tag :=
  {| Slug := Slug p; Title := Title p; HTMLTitle := HTMLTitle p;
     Created := Created p; Modified := Modified p; Tags := Tags p;
     Summary := Summary p; Content := Content p;
     TagsString := TagsString p; Permalink := Permalink p;
     Outdated := Outdated p; Order := Order p; Draft := Draft p;
     Author := Author p; License := License p; Template := Template p;
     Keywords := Keywords p; SearchTitle := SearchTitle p;
     SearchContent := v |}.

Definition setSearchTitle {Tag : Type} (v : string) (p : t Tag) : t Tag :=
  {| Slug := Slug p; Title := Title p; HTMLTitle := HTMLTitle p;
     Created := Created p; Modified := Modified p; Tags := Tags p;
     Summary := Summary p; Content := Content p;
     TagsString := TagsString p; Permalink := Permalink p;
     Outdated := Outdated p; Order := Order p; Draft := Draft p;
     Author := Author p; License := License p; Template := Template p;
     Keywords := Keywords p; SearchTitle := v;
     SearchContent := SearchContent p |}.

End Post.

(** The mapping a post's metadata file decodes to: one entry per field of
    [Post] that carries a YAML key (its tag, or the lower-cased field name
    where it has none); a key the file leaves out is the zero value.
    [created] and [modified] are the raw timestamp texts. *)
Module PostMeta.

Record t : Type := mk {
  title : string;
  modified : string;
  summary : string;
  tags : string;
  created : string;
  order : string;
  draft : bool;
  author : option Author.t;
  license : option Link.t;
  template : string;
  keywords : string;
  searchtitle : string;
  searchcontent : string
}.

(** Decoding into a [Post]: the key [modified] lands in [HTMLTitle], the key
    [created] in [Permalink], and the fields tagged [yaml:"-"] ([Slug],
    [Created], [Modified], [Tags], [Content], [Outdated]) are not written. *)
Definition unmarshal {Tag : Type} (doc : t) (post : Post.t Tag) : Post.t Tag :=
  {| Post.Slug := Post.Slug post;
     Post.Title := title doc;
     Post.HTMLTitle := modified doc;
     Post.Created := Post.Created post;
     Post.Modified := Post.Modified post;
     Post.Tags := Post.Tags post;
     Post.Summary := summary doc;
     Post.Content := Post.Content post;
     Post.TagsString := tags doc;
     Post.Permalink := created doc;
     Post.Outdated := Post.Outdated post;
     Post.Order := order doc;
     Post.Draft := draft doc;
     Post.Author := author doc;
     Post.License := license doc;
     Post.Template := template doc;
     Post.Keywords := keywords doc;
     Post.SearchTitle := searchtitle doc;
     Post.SearchContent := searchcontent doc |}.

End PostMeta.

(** ** What the loaders call outside these files

    The file system, and the functions of Go's library and of packages
    [helper] and [vars] that are not part of the files embedded here.  An
    operation that can fail returns its error on the left; where Go's code
    only uses the error's text ([err.Error()]), the text stands for it. *)
Module extern.

(** One call of the function handed to [filepath.Walk]: the path visited,
    whether it is a directory, and the error Walk met there, if any. *)
Record Visit : Type := mkVisit {
  p : string;
  IsDir : bool;
  err : option helper.error
}.

Record World : Type := mkWorld {
  (** [helper.LoadYAMLFile] on a post's metadata file and on the links
      file: the decoded document, or the error of reading or decoding.
      The links file decodes to a list whose entries are all mappings. *)
  LoadYAMLPost : string → helper.error + PostMeta.t;
  LoadYAMLLinks : string → helper.error + list Link.t;
  (** [ioutil.ReadFile]: the bytes of the file, or the error's text. *)
  ReadFile : string → string + string;
  (** [utils.FileExists]. *)
  FileExists : string → bool;
  (** The visits [filepath.Walk] makes from a root, in order. *)
  WalkVisits : string → list Visit;
  (** [time.Parse(vars.DateFormat, s)]: the instant, or the error's text. *)
  ParseDate : string → string + time.Time;
  (** [vars.PostURL] and [vars.PagePost]. *)
  PostURL : string → string;
  PagePost : string;
  (** [strings.ToLower], [filepath.Clean] and [filepath.ToSlash]. *)
  ToLower : string → string;
  Clean : string → string;
  ToSlash : string → string
}.

End extern.

(** ** Package [strings] and [strconv]: the functions written out *)
Module strings.

(** [strings.TrimPrefix(s, prefix)]. *)
Definition TrimPrefix (s prefix : string) : string :=
  if String.prefix prefix s
  then String.substring (String.length prefix)
         (String.length s - String.length prefix) s
  else s.

(** [strings.TrimLeft(s, "/")] and [strings.TrimRight(s, "/")]. *)
Fixpoint TrimLeftSlash (s : string) : string :=
  match s with
  | String "/"%char s' => TrimLeftSlash s'
  | _ => s
  end.

Fixpoint TrimRightSlash (s : string) : string :=
  match s with
  | EmptyString => EmptyString
  | String c s' =>
      match TrimRightSlash s' with
      | EmptyString => if Ascii.eqb c "/"%char then EmptyString
                       else String c EmptyString
      | rest => String c rest
      end
  end.

(** [strings.Trim(s, "/")]. *)
Definition TrimSlash (s : string) : string :=
  TrimRightSlash (TrimLeftSlash s).

(** [strconv.Itoa] of an index, which is never negative. *)
Definition Itoa (i : nat) : string := pretty i.

End strings.

(** ** The loaders of package [data] *)

(** The values of [Post.Order]. *)
Definition orderTop : string := "top".
Definition orderLast : string := "last".
Definition orderDefault : string := "default".

Section Loaders.
Context {Tag : Type}.
Variable w : extern.World.
Variable pth : path.Path.

Abbreviation Post := (Post.t Tag).
Abbreviation error := helper.error.

(** The loop of [loadLinks] over [links], from position [index] on: the
    first entry that [sanitize] rejects gives the error, with the file and
    the entry's position written into it. *)
Fixpoint sanitizeLinks (index : nat) (links : list Link.t)
    : option helper.FieldError :=
  match links with
  | [] => None
  | link :: rest =>
      match Link.sanitize link with
      | Some e =>
          Some (helper.mkFieldError
                  (path.MetaLinksFile pth)
                  (helper.Message e)
                  ("[" +:+ strings.Itoa index +:+ "]." +:+ helper.Field e))
      | None => sanitizeLinks (S index) rest
      end
  end.

(** [loadLinks(path)]. *)
Definition loadLinks : error + list Link.t :=
  match extern.LoadYAMLLinks w (path.MetaLinksFile pth) with
  | inl e => inl e
  | inr links =>
      match sanitizeLinks 0 links with
      | Some e => inl (helper.IsFieldError e)
      | None => inr links
      end
  end.

(** The field error of [loadPost] for [slug]: always on the metadata file. *)
Definition fieldError (slug message field : string) : error :=
  helper.IsFieldError
    (helper.mkFieldError (path.PostMetaPath pth slug) message field).

(** The last step of [loadPost]: the lower-cased copies for searching. *)
Definition withSearch (post : Post) : Post :=
  let post := Post.setSearchContent (extern.ToLower w (Post.Content post)) post in
  Post.setSearchTitle (extern.ToLower w (Post.Title post)) post.

(** [loadPost(path, slug)]. *)
Definition loadPost (slug : string) : error + Post :=
  match extern.LoadYAMLPost w (path.PostMetaPath pth slug) with
  | inl e => inl e
  | inr doc =>
    let post := PostMeta.unmarshal doc Post.zero in
    if Post.Draft post then inr post else
    let post := Post.setSlug slug post in
    match extern.ReadFile w (path.PostContentPath pth slug) with
    | inl msg => inl (fieldError slug msg "path")
    | inr data =>
      if String.length data =? 0 then inl (fieldError slug "不能为空" "content") else
      let post := Post.setContent data post in
      match extern.ParseDate w (Post.Permalink post) with
      | inl msg => inl (fieldError slug msg "created")
      | inr created =>
        let post := Post.setCreated created post in
        let post := Post.setPermalink (extern.PostURL w (Post.Slug post)) post in
        match extern.ParseDate w (Post.HTMLTitle post) with
        | inl msg => inl (fieldError slug msg "modified")
        | inr modified =>
          let post := Post.setModified modified post in
          let post := Post.setHTMLTitle "" post in
          if String.length (Post.Title post) =? 0 then
            inl (fieldError slug "不能为空" "title")
          else if String.length (Post.TagsString post) =? 0 then
            inl (fieldError slug "不能为空" "tags")
          else
            let post :=
              if String.length (Post.Keywords post) =? 0
              then Post.setKeywords (Post.TagsString post) post else post in
            let post :=
              if String.length (Post.Template post) =? 0
              then Post.setTemplate (extern.PagePost w) post else post in
            if String.length (Post.Order post) =? 0 then
              inr (withSearch (Post.setOrder orderDefault post))
            else if negb (String.eqb (Post.Order post) orderDefault)
                    && negb (String.eqb (Post.Order post) orderLast)
                    && negb (String.eqb (Post.Order post) orderTop) then
              inl (fieldError slug "无效的值" "order")
            else inr (withSearch post)
        end
      end
    end
  end.

(** The closure [count] of [checkPostsDup]: how many posts have [slug]. *)
Fixpoint count (posts : list Post) (slug : string) : nat :=
  match posts with
  | [] => 0
  | post :: rest =>
      (if String.eqb (Post.Slug post) slug then 1 else 0) + count rest slug
  end.

(** The loop of [checkPostsDup] over the posts still to visit. *)
Fixpoint checkEach (posts rest : list Post) : option error :=
  match rest with
  | [] => None
  | post :: rest' =>
      if 1 <? count posts (Post.Slug post)
      then Some (helper.OtherError ("存在同名的文章：" +:+ Post.Slug post))
      else checkEach posts rest'
  end.

(** [checkPostsDup(posts)]: [None] is Go's [nil]. *)
Definition checkPostsDup (posts : list Post) : option error :=
  checkEach posts posts.

(** The comparison [sortPosts] hands to [sort.SliceStable], on the posts
    at the two indices. *)
Definition lessPost (pi pj : Post) : bool :=
  if String.eqb (Post.Order pi) orderTop || String.eqb (Post.Order pj) orderLast
  then true
  else if String.eqb (Post.Order pi) orderLast
          || String.eqb (Post.Order pj) orderTop
  then false
  else time.After (Post.Created pi) (Post.Created pj).

(** [sortPosts(posts)]: the slice after the call. *)
Definition sortPosts (posts : list Post) : option (list Post) :=
  gosort.SliceStable lessPost posts.

(** The function [walk] of [loadPosts] at one visit: the error it returns,
    if any, and the slugs collected so far. *)
Definition walk (slugs : list string) (v : extern.Visit)
    : option error * list string :=
  match extern.err v with
  | Some e => (Some e, slugs)
  | None =>
      if negb (extern.IsDir v) then (None, slugs)
      else
        let postsDir := extern.Clean w (path.PostsDir pth) in
        let slug := strings.TrimPrefix (extern.p v) postsDir in
        let slug := strings.TrimSlash (extern.ToSlash w slug) in
        if extern.FileExists w (path.PostContentPath pth slug)
           && extern.FileExists w (path.PostMetaPath pth slug)
        then (None, (slugs ++ [slug])%list)
        else (None, slugs)
  end.

(** [filepath.Walk(dir, walk)]: Walk stops at the first error [walk]
    returns and returns it. *)
Fixpoint Walk (visits : list extern.Visit) (slugs : list string)
    : error + list string :=
  match visits with
  | [] => inr slugs
  | v :: rest =>
      match walk slugs v with
      | (Some e, _) => inl e
      | (None, slugs') => Walk rest slugs'
      end
  end.

(** The loading loop of [loadPosts]: the first error ends it, and a draft
    is not appended. *)
Fixpoint loadEach (slugs : list string) (posts : list Post)
    : error + list Post :=
  match slugs with
  | [] => inr posts
  | slug :: rest =>
      match loadPost slug with
      | inl e => inl e
      | inr post =>
          loadEach rest
            (if Post.Draft post then posts else (posts ++ [post])%list)
      end
  end.

(** [loadPosts(path)]: [Some (inr posts)] when it returns the posts,
    [Some (inl e)] when it returns the error [e], and [None] only if the
    sorting call did not return. *)
Definition loadPosts : option (error + list Post) :=
  match Walk (extern.WalkVisits w (path.PostsDir pth)) [] with
  | inl e => Some (inl e)
  | inr slugs =>
      match loadEach slugs [] with
      | inl e => Some (inl e)
      | inr posts =>
          match checkPostsDup posts with
          | Some e => Some (inl e)
          | None => posts' ← sortPosts posts; Some (inr posts')
          end
      end
  end.

End Loaders.

(** ** The specification's vocabulary *)

(** The values of [order] the specification allows. *)
Definition validOrder (o : string) : Prop :=
  o = orderTop ∨ o = orderLast ∨ o = orderDefault.

(** A comparison is asymmetric when it never holds in both directions, as
    a strict weak ordering requires. *)
Definition asymmetric {X : Type} (lt : X → X → bool) : Prop :=
  ∀ x y, lt x y = true → lt y x = false.

(** The checks on a post that is not a draft, in the order the
    specification fixes. *)
Inductive Check : Type :=
| CheckContent | CheckCreated | CheckModified
| CheckTitle | CheckTags | CheckOrder.

Definition checksInOrder : list Check :=
  [CheckContent; CheckCreated; CheckModified; CheckTitle; CheckTags; CheckOrder].

Section Checks.
Variable w : extern.World.
Variable pth : path.Path.

(** What one check finds wrong with the post [slug] whose metadata decoded
    to [doc]: the field it blames and its message, or nothing. *)
Definition spec_failure (slug : string) (doc : PostMeta.t) (c : Check)
    : option (string * string) :=
  match c with
  | CheckContent =>
      match extern.ReadFile w (path.PostContentPath pth slug) with
      | inl msg => Some ("path", msg)
      | inr data =>
          if String.eqb data "" then Some ("content", "不能为空") else None
      end
  | CheckCreated =>
      match extern.ParseDate w (PostMeta.created doc) with
      | inl msg => Some ("created", msg)
      | inr _ => None
      end
  | CheckModified =>
      match extern.ParseDate w (PostMeta.modified doc) with
      | inl msg => Some ("modified", msg)
      | inr _ => None
      end
  | CheckTitle =>
      if String.eqb (PostMeta.title doc) "" then Some ("title", "不能为空")
      else None
  | CheckTags =>
      if String.eqb (PostMeta.tags doc) "" then Some ("tags", "不能为空")
      else None
  | CheckOrder =>
      if String.eqb (PostMeta.order doc) ""
         || String.eqb (PostMeta.order doc) orderTop
         || String.eqb (PostMeta.order doc) orderLast
         || String.eqb (PostMeta.order doc) orderDefault
      then None else Some ("order", "无效的值")
  end.

(** The finding of the first check of [cs] that fails. *)
Fixpoint spec_firstFailure (slug : string) (doc : PostMeta.t) (cs : list Check)
    : option (string * string) :=
  match cs with
  | [] => None
  | c :: rest =>
      match spec_failure slug doc c with
      | Some found => Some found
      | None => spec_firstFailure slug doc rest
      end
  end.

End Checks.

(** ** A small site, to run the loaders on *)
Module site.

Definition Tag : Type := string.

Definition root : path.Path :=
  {| path.PostsDir := "posts";
     path.MetaLinksFile := "meta/links.yaml";
     path.PostMetaPath := λ slug, "posts/" +:+ slug +:+ "/meta.yaml";
     path.PostContentPath := λ slug, "posts/" +:+ slug +:+ "/content.html" |}.

(** Looking a path up in a table of files. *)
Fixpoint find {V : Type} (files : list (string * V)) (name : string) : option V :=
  match files with
  | [] => None
  | (k, v) :: rest => if String.eqb k name then Some v else find rest name
  end.

(** A stand-in for [time.Parse] with the RFC 3339 layout that knows two
    dates, as nanoseconds since the zero time. *)
Definition parseDate (s : string) : string + time.Time :=
  if String.eqb s "2023-01-01T00:00:00Z" then inr 63808128000000000000%Z
  else if String.eqb s "2023-06-01T00:00:00Z" then inr 63821174400000000000%Z
  else inl ("parsing time: cannot parse " +:+ s).

Definition january : time.Time := 63808128000000000000%Z.
Definition june : time.Time := 63821174400000000000%Z.

(** Lower-casing of the ASCII letters. *)
Definition lowerChar (c : ascii) : ascii :=
  let n := nat_of_ascii c in
  if (65 <=? n) && (n <=? 90) then ascii_of_nat (n + 32) else c.

Fixpoint toLower (s : string) : string :=
  match s with
  | EmptyString => EmptyString
  | String c rest => String (lowerChar c) (toLower rest)
  end.

Definition meta (title modified created order : string) (draft : bool)
    : PostMeta.t :=
  {| PostMeta.title := title;
     PostMeta.modified := modified;
     PostMeta.summary := "";
     PostMeta.tags := "go,blog";
     PostMeta.created := created;
     PostMeta.order := order;
     PostMeta.draft := draft;
     PostMeta.author := None;
     PostMeta.license := None;
     PostMeta.template := "";
     PostMeta.keywords := "";
     PostMeta.searchtitle := "";
     PostMeta.searchcontent := "" |}.

(** The metadata files of the site, by slug. *)
Definition metas : list (string * PostMeta.t) :=
  [ ("posts/a/meta.yaml",
       meta "First" "2023-01-01T00:00:00Z" "2023-01-01T00:00:00Z" "" false);
    ("posts/b/meta.yaml",
       meta "Second" "2023-06-01T00:00:00Z" "2023-06-01T00:00:00Z" "default" false);
    ("posts/p1/meta.yaml",
       meta "Pinned one" "2023-01-01T00:00:00Z" "2023-01-01T00:00:00Z" "top" false);
    ("posts/p2/meta.yaml",
       meta "Pinned two" "2023-06-01T00:00:00Z" "2023-06-01T00:00:00Z" "top" false);
    ("posts/d/meta.yaml", meta "" "later" "soon" "middle" true);
    ("posts/u/meta.yaml",
       meta "Unreadable" "2023-01-01T00:00:00Z" "2023-01-01T00:00:00Z" "" false);
    ("posts/e/meta.yaml",
       meta "Empty" "2023-01-01T00:00:00Z" "2023-01-01T00:00:00Z" "" false);
    ("posts/x/meta.yaml", meta "" "2023-01-01T00:00:00Z" "soon" "" false);
    ("posts/m/meta.yaml",
       meta "Middle" "2023-01-01T00:00:00Z" "2023-01-01T00:00:00Z" "middle" false) ].

(** The content files, each with what reading it gives: those of [d] and
    [u] exist and cannot be read, that of [e] is empty. *)
Definition contents : list (string * (string + string)) :=
  [ ("posts/a/content.html", inr "<p>Hello</p>");
    ("posts/b/content.html", inr "<p>World</p>");
    ("posts/p1/content.html", inr "<p>One</p>");
    ("posts/p2/content.html", inr "<p>Two</p>");
    ("posts/d/content.html", inl "read posts/d/content.html: permission denied");
    ("posts/u/content.html", inl "read posts/u/content.html: permission denied");
    ("posts/e/content.html", inr "");
    ("posts/x/content.html", inr "<p>X</p>");
    ("posts/m/content.html", inr "<p>M</p>") ].

(** The visits of a walk that finds the directories of [slugs], each with
    its two files, under the root. *)
Definition visitsOf (slugs : list string) : list extern.Visit :=
  extern.mkVisit "posts" true None ::
  flat_map (λ slug,
    [ extern.mkVisit ("posts/" +:+ slug) true None;
      extern.mkVisit ("posts/" +:+ slug +:+ "/content.html") false None;
      extern.mkVisit ("posts/" +:+ slug +:+ "/meta.yaml") false None ]) slugs.

(** The site as the loaders see it, for a given walk and links file. *)
Definition world (slugs : list string) (links : helper.error + list Link.t)
    : extern.World :=
  {| extern.LoadYAMLPost := λ name,
       match find metas name with
       | Some doc => inr doc
       | None => inl (helper.OtherError ("open " +:+ name +:+ ": no such file"))
       end;
     extern.LoadYAMLLinks := λ _, links;
     extern.ReadFile := λ name,
       match find contents name with
       | Some result => result
       | None => inl ("open " +:+ name +:+ ": no such file or directory")
       end;
     extern.FileExists := λ name,
       bool_decide (is_Some (find metas name))
       || bool_decide (is_Some (find contents name));
     extern.WalkVisits := λ _, visitsOf slugs;
     extern.ParseDate := parseDate;
     extern.PostURL := λ slug, "/posts/" +:+ slug +:+ ".html";
     extern.PagePost := "post";
     extern.ToLower := toLower;
     extern.Clean := λ name, name;
     extern.ToSlash := λ name, name |}.

Definition noLinks : helper.error + list Link.t := inr [].

Definition link (url text : string) : Link.t :=
  {| Link.Icon := ""; Link.Title := ""; Link.Rel := "";
     Link.URL := url; Link.Text := text |}.

Definition goodLinks : list Link.t :=
  [ link "https://example.com" "Home"; link "https://example.com/about" "About" ].

Definition badLinks : list Link.t :=
  [ link "https://example.com" "Home"; link "https://example.com/about" "About";
    link "" "Nowhere"; link "https://example.com/x" "" ].

(** A validated post as [loadPost] builds it. *)
Definition published (slug title data order : string) (created : time.Time)
    : Post.t Tag :=
  {| Post.Slug := slug; Post.Title := title; Post.HTMLTitle := "";
     Post.Created := created; Post.Modified := created; Post.Tags := [];
     Post.Summary := ""; Post.Content := data; Post.TagsString := "go,blog";
     Post.Permalink := "/posts/" +:+ slug +:+ ".html"; Post.Outdated := "";
     Post.Order := order; Post.Draft := false; Post.Author := None;
     Post.License := None; Post.Template := "post"; Post.Keywords := "go,blog";
     Post.SearchTitle := toLower title; Post.SearchContent := toLower data |}.

Definition postA : Post.t Tag := published "a" "First" "<p>Hello</p>" "default" january.
Definition postB : Post.t Tag := published "b" "Second" "<p>World</p>" "default" june.
Definition pinned1 : Post.t Tag := published "p1" "Pinned one" "<p>One</p>" "top" january.
Definition pinned2 : Post.t Tag := published "p2" "Pinned two" "<p>Two</p>" "top" june.
Definition last1 : Post.t Tag := published "l1" "Last one" "<p>One</p>" "last" january.
Definition last2 : Post.t Tag := published "l2" "Last two" "<p>Two</p>" "last" june.

End site.

(** ** Proof steps shared by the facts about [loadPost] *)

(** Runs [loadPost] up to the test of [draft], given what the metadata
    decoded to and the value of its [draft] key. *)
Ltac start_loadPost Hload Hdraft :=
  unfold loadPost; rewrite Hload; cbn; rewrite ?Hdraft.

(** ** The other validators of package [data] *)

(** [(author *Author) sanitize()]. *)
Definition sanitizeAuthor (author : Author.t) : option helper.FieldError :=
  if String.length (Author.Name author) =? 0 then
    Some (helper.mkFieldError "" "不能为空" "name")
  else None.

Module Icon.

Record t : Type := mk {
  URL : string;
  Type_ : string;
  Sizes : string
}.

(** [(icon *Icon) sanitize()]. *)
Definition sanitize (icon : t) : option helper.FieldError :=
  if String.length (URL icon) =? 0 then
    Some (helper.mkFieldError "" "不能为空" "url")
  else None.

End Icon.

(** [Outdated]: [Duration] is a [time.Duration], a signed count of
    nanoseconds that is only compared with zero here. *)
Module Outdated.

Definition OutdatedTypeCreated : string := "created".
Definition OutdatedTypeModified : string := "modified".

Record t : Type := mk {
  Type_ : string;
  Duration : Z;
  Content : string
}.

(** [(o *Outdated) sanitize()]. *)
Definition sanitize (o : t) : option helper.FieldError :=
  if negb (String.eqb (Type_ o) OutdatedTypeCreated)
     && negb (String.eqb (Type_ o) OutdatedTypeModified) then
    Some (helper.mkFieldError "" "无效的值" "outdated.type")
  else if String.length (Content o) =? 0 then
    Some (helper.mkFieldError "" "不能为空" "outdated.content")
  else if (Duration o =? 0)%Z then
    Some (helper.mkFieldError "" "不能为空" "outdated.duration")
  else if (Duration o <? 0)%Z then
    Some (helper.mkFieldError "" "不能小于 0" "outdated.duration")
  else None.

End Outdated.

(** ** Package [boot]

    [Init] and [initDB].  The configuration is read by [loadConfig], the
    database is opened by [orm.NewDB] with one of the dialects of package
    [dialect], and the logs are set up by [logs.InitFromXMLFile]; the three
    are outside these files and are taken as they answer. *)
Module boot.

Definition configPath : string := "./config/app.json".
Definition logConfigPath : string := "./config/logs.xml".

(** The fields of [Config] that [initDB] reads. *)
Record Config : Type := mkConfig {
  DBDriver : string;
  DBDSN : string;
  DBPrefix : string
}.

(** [dialect.Sqlite3()], [dialect.Mysql()] and [dialect.Postgres()]. *)
Inductive Dialect : Type := Sqlite3 | Mysql | Postgres.

Section Boot.
(** The type of [*orm.DB]. *)
Context {DB : Type}.
Variable loadConfig : string → helper.error + Config.
Variable NewDB : string → string → string → Dialect → helper.error + DB.
(** [logs.InitFromXMLFile]: [None] is Go's [nil]. *)
Variable InitFromXMLFile : string → option helper.error.

(** [initDB(cfg)]. *)
Definition initDB (cfg : Config) : helper.error + DB :=
  if String.eqb (DBDriver cfg) "sqlite3" then
    NewDB (DBDriver cfg) (DBDSN cfg) (DBPrefix cfg) Sqlite3
  else if String.eqb (DBDriver cfg) "mysql" then
    NewDB (DBDriver cfg) (DBDSN cfg) (DBPrefix cfg) Mysql
  else if String.eqb (DBDriver cfg) "postgres" then
    NewDB (DBDriver cfg) (DBDSN cfg) (DBPrefix cfg) Postgres
  else
    inl (helper.OtherError ("不能理解的dbDriver值：" +:+ DBDriver cfg)).

(** [Init()]: the configuration and the database, or the first error. *)
Definition Init : helper.error + (Config * DB) :=
  match loadConfig configPath with
  | inl e => inl e
  | inr cfg =>
      match initDB cfg with
      | inl e => inl e
      | inr db =>
          match InitFromXMLFile logConfigPath with
          | Some e => inl e
          | None => inr (cfg, db)
          end
      end
  end.

End Boot.
End boot.

(** ** Insertion sort on lists

    What the loop of [insertionSort] computes, told on lists: an element
    sinks towards the front past every neighbour it compares below. *)
Module insertion.
Section Lists.
Context {A : Type}.
Variable less : A → A → bool.

(** [x] sinking into a run given nearest element first. *)
Fixpoint sink (x : A) (nearest : list A) : list A :=
  match nearest with
  | [] => [x]
  | y :: rest => if less x y then y :: sink x rest else x :: y :: rest
  end.

(** The run [run] followed by [x], once [x] has sunk into it. *)
Definition insert (run : list A) (x : A) : list A :=
  reverse (sink x (reverse run)).

(** The elements of [l] inserted one after the other, from the first. *)
Definition sorted (l : list A) : list A := foldl insert [] l.

End Lists.
End insertion.

(** ** More of the specification's vocabulary *)
Section Vocabulary.
Context {Tag : Type}.
Variable w : extern.World.
Variable pth : path.Path.

(** The posts of [posts] whose order is [o], in the order of [posts]. *)
Definition ofOrder (o : string) (posts : list (Post.t Tag)) : list (Post.t Tag) :=
  filter (λ post, Post.Order post = o) posts.

(** [x] was created after [y]. *)
Definition createdAfter (x y : Post.t Tag) : bool :=
  time.After (Post.Created x) (Post.Created y).

(** The slug [walk] computes at a visit. *)
Definition slugOfVisit (v : extern.Visit) : string :=
  strings.TrimSlash
    (extern.ToSlash w
       (strings.TrimPrefix (extern.p v) (extern.Clean w (path.PostsDir pth)))).

(** A visit at which [walk] collects a slug: a directory, met without an
    error, whose slug has both its files. *)
Definition collects (v : extern.Visit) : bool :=
  extern.IsDir v
  && extern.FileExists w (path.PostContentPath pth (slugOfVisit v))
  && extern.FileExists w (path.PostMetaPath pth (slugOfVisit v)).

(** The metadata of [slug] decodes and does not mark a draft. *)
Definition isPublished (slug : string) : bool :=
  match extern.LoadYAMLPost w (path.PostMetaPath pth slug) with
  | inr doc => negb (PostMeta.draft doc)
  | inl _ => false
  end.

End Vocabulary.

(** Unfolds the assignments that built a post, to compare it field by
    field. *)
Ltac built_post Hdraft :=
  cbv beta iota zeta delta
    [withSearch Post.setSearchTitle Post.setSearchContent Post.setOrder
     Post.setTemplate Post.setKeywords Post.setHTMLTitle Post.setModified
     Post.setPermalink Post.setCreated Post.setContent Post.setSlug
     PostMeta.unmarshal Post.zero
     Post.Slug Post.Title Post.HTMLTitle Post.Created Post.Modified Post.Tags
     Post.Summary Post.Content Post.TagsString Post.Permalink Post.Outdated
     Post.Order Post.Draft Post.Author Post.License Post.Template
     Post.Keywords Post.SearchTitle Post.SearchContent];
  rewrite ?Hdraft; reflexivity.

(** ** Decimal numerals

    What it is for a string to be the decimal numeral of a number, told
    without [strconv.Itoa]: the string is read digit by digit. *)

(** The value of a decimal digit, if the character is one. *)
Definition digitValue (c : ascii) : option N :=
  let n := N_of_ascii c in
  if (48 <=? n)%N && (n <=? 57)%N then Some (n - 48)%N else None.

(** The number the digits of [s] denote after digits of value [acc], or
    [None] when some character is no digit. *)
Fixpoint decimalValue (acc : N) (s : string) : option N :=
  match s with
  | EmptyString => Some acc
  | String c rest =>
      match digitValue c with
      | Some d => decimalValue (10 * acc + d)%N rest
      | None => None
      end
  end.

(** [s] is the decimal numeral of [i]: digits only, at least one, denoting
    [i], and no zero in front of other digits. *)
Definition numeralOf (i : nat) (s : string) : Prop :=
  s ≠ "" ∧ decimalValue 0 s = Some (N.of_nat i)
  ∧ ∀ rest, s = "0" +:+ rest → rest = "".

(** ** More of the small site *)

(** Links whose first entry has no text, and links whose thirteenth entry
    has no address. *)
Definition firstBadLinks : list Link.t :=
  site.link "https://example.com" "" :: site.goodLinks.

Definition lateBadLinks : list Link.t :=
  (replicate 12 (site.link "https://example.com" "Home")
   ++ [site.link "" "Nowhere"])%list.


(** * Facts about the embedding *)

(** ** [sort.SliceStable] returns, with the elements it was given *)
Section SliceFacts.
Context {A : Type}.
Variable less : A → A → bool.
Import gosort.
Local Arguments Nat.div : simpl never.

Lemma Less_in_range (data : list A) (i j : nat) :
  i < length data → j < length data →
  ∃ c, Less less data i j = Some c.
Proof.
  intros Hi Hj. unfold Less.
  destruct (lookup_lt_is_Some_2 data i Hi) as [x ->].
  destruct (lookup_lt_is_Some_2 data j Hj) as [y ->].
  simpl. eauto.
Qed.

Lemma Swap_keeps (n i j : nat) : i < n → j < n → keeps (A:=A) n (Swap i j).
Proof.
  intros Hi Hj data Hlen. unfold Swap. subst n.
  destruct (lookup_lt_is_Some_2 data i Hi) as [x Hx].
  destruct (lookup_lt_is_Some_2 data j Hj) as [y Hy].
  rewrite Hx, Hy. simpl. eexists. split; [reflexivity|]. split.
  - by rewrite !length_insert.
  - by apply Permutation_insert_swap.
Qed.

Lemma keeps_ret (n : nat) : keeps (A:=A) n Some.
Proof. intros data Hlen. eauto. Qed.

Lemma keeps_bind (n : nat) (f g : list A → option (list A)) :
  keeps n f → keeps n g → keeps (A:=A) n (λ data, f data ≫= g).
Proof.
  intros Hf Hg data Hlen.
  destruct (Hf data Hlen) as (d1 & -> & Hl1 & Hp1). simpl.
  destruct (Hg d1 Hl1) as (d2 & -> & Hl2 & Hp2).
  eexists. split; [reflexivity|]. split; [done|]. by etrans.
Qed.

Lemma forUp_keeps (n count k0 : nat) body :
  (∀ k, k0 ≤ k < k0 + count → keeps (A:=A) n (body k)) →
  keeps (A:=A) n (forUp count k0 body).
Proof.
  revert k0. induction count as [|c IH]; intros k0 Hbody; simpl.
  - apply keeps_ret.
  - apply (keeps_bind n (body k0) (forUp c (S k0) body)).
    + apply Hbody. lia.
    + apply IH. intros k Hk. apply Hbody. lia.
Qed.

Lemma forDown_keeps (n count k0 : nat) body :
  count ≤ k0 →
  (∀ k, k0 - count < k ≤ k0 → keeps (A:=A) n (body k)) →
  keeps (A:=A) n (forDown count k0 body).
Proof.
  revert k0. induction count as [|c IH]; intros k0 Hle Hbody; simpl.
  - apply keeps_ret.
  - apply (keeps_bind n (body k0) (forDown c (k0 - 1) body)).
    + apply Hbody. lia.
    + apply IH; [lia|]. intros k Hk. apply Hbody. lia.
Qed.

Lemma insertionInner_keeps (n a j : nat) :
  j < n → keeps (A:=A) n (insertionInner less a j).
Proof.
  induction j as [|j' IH]; intros Hj data Hlen; simpl.
  - eauto.
  - destruct (a <? S j'); [|eauto].
    destruct (Less_in_range data (S j') j') as [c ->]; [lia..|]. simpl.
    destruct c; [|eauto].
    apply (keeps_bind n (Swap (S j') j') (insertionInner less a j'));
      [apply Swap_keeps; lia | apply IH; lia | done].
Qed.

Lemma insertionSort_keeps (n a b : nat) :
  b ≤ n → keeps (A:=A) n (insertionSort less a b).
Proof.
  intros Hb. apply forUp_keeps. intros k Hk.
  apply insertionInner_keeps. lia.
Qed.

Lemma swapRange_keeps (n a b count : nat) :
  a + count ≤ n → b + count ≤ n → keeps (A:=A) n (swapRange a b count).
Proof.
  intros Ha Hb. apply forUp_keeps. intros k Hk. apply Swap_keeps; lia.
Qed.

Lemma rotateLoop_keeps (n fuel i j m : nat) :
  0 < i → 0 < j → i + j ≤ fuel → i ≤ m → m + j ≤ n →
  keeps (A:=A) n (rotateLoop fuel i j m).
Proof.
  revert i j. induction fuel as [|f IH]; intros i j Hi Hj Hf Him Hmj; [lia|].
  simpl. destruct (Nat.eqb_spec i j) as [->|Hne].
  - apply swapRange_keeps; lia.
  - destruct (Nat.ltb_spec j i).
    + apply (keeps_bind n (swapRange (m - i) m j) (rotateLoop f (i - j) j m)).
      * apply swapRange_keeps; lia.
      * apply IH; lia.
    + apply (keeps_bind n (swapRange (m - i) (m + j - i) i)
               (rotateLoop f i (j - i) m)).
      * apply swapRange_keeps; lia.
      * apply IH; lia.
Qed.

Lemma rotate_keeps (n a m b : nat) :
  a < m → m < b → b ≤ n → keeps (A:=A) n (rotate a m b).
Proof.
  intros Ha Hm Hb. unfold rotate. apply rotateLoop_keeps; lia.
Qed.

Lemma searchLoop_returns (fuel : nat) (right : nat → option bool) (i j : nat) :
  i ≤ j → j - i ≤ fuel →
  (∀ h, i ≤ h < j → ∃ c, right h = Some c) →
  ∃ r, searchLoop fuel right i j = Some r ∧ i ≤ r ≤ j.
Proof.
  revert i j. induction fuel as [|f IH]; intros i j Hij Hf Hright.
  - simpl. destruct (Nat.ltb_spec i j); [lia|]. exists i. split; [done|lia].
  - simpl. destruct (Nat.ltb_spec i j); [|exists i; split; [done|lia]].
    assert (Hh : i ≤ (i + j) / 2 < j).
    { split; [apply Nat.div_le_lower_bound | apply Nat.Div0.div_lt_upper_bound]; lia. }
    destruct (Hright _ Hh) as [c ->]. simpl. destruct c.
    + destruct (IH ((i + j) / 2 + 1) j) as (r & -> & Hr); [lia..| |].
      * intros h' Hh'. apply Hright. lia.
      * exists r. split; [done|lia].
    + destruct (IH i ((i + j) / 2)) as (r & -> & Hr); [lia..| |].
      * intros h' Hh'. apply Hright. lia.
      * exists r. split; [done|lia].
Qed.

Lemma half_bounds (a b : nat) : 2 * ((a + b) / 2) ≤ a + b < 2 * ((a + b) / 2) + 2.
Proof.
  pose proof (Nat.div_mod_eq (a + b) 2).
  pose proof (Nat.mod_upper_bound (a + b) 2). lia.
Qed.

Lemma keeps_guard (n : nat) (c : bool) (f : list A → option (list A)) :
  (c = true → keeps n f) → keeps n (λ data, if c then f data else Some data).
Proof. destruct c; intros Hf; [by apply Hf | apply keeps_ret]. Qed.

Lemma symMerge_keeps (n fuel a m b : nat) :
  a < m → m < b → b ≤ n → b - a ≤ fuel →
  keeps (A:=A) n (symMerge less fuel a m b).
Proof.
  revert a m b. induction fuel as [|f IH]; intros a m b Ha Hm Hb Hf; [lia|].
  intros data Hlen. cbn [symMerge].
  destruct (Nat.eqb_spec (m - a) 1) as [Hone|_].
  { destruct (searchLoop_returns (b - m) (λ h, Less less data h a) m b)
      as (i & -> & Hi); [lia..| |].
    - intros h Hh. apply Less_in_range; lia.
    - simpl. apply forUp_keeps; [|done].
      intros k Hk. apply Swap_keeps; lia. }
  destruct (Nat.eqb_spec (b - m) 1) as [Hone|_].
  { destruct (searchLoop_returns (m - a) (λ h, negb <$> Less less data m h) a m)
      as (i & -> & Hi); [lia..| |].
    - intros h Hh. destruct (Less_in_range data m h) as [c ->]; [lia..|].
      simpl. eauto.
    - simpl. apply forDown_keeps; [lia| |done].
      intros k Hk. apply Swap_keeps; lia. }
  pose proof (half_bounds a b) as Hmid.
  set (mid := (a + b) / 2) in *.
  set (sr := if mid <? m then (mid + m - b, mid) else (a, m)).
  assert (Hsr : sr.1 ≤ sr.2 ∧ a ≤ sr.1 ∧ mid + m ≤ sr.1 + b ∧ sr.2 ≤ m
                ∧ sr.2 ≤ mid).
  { unfold sr. destruct (Nat.ltb_spec mid m); simpl; lia. }
  destruct sr as [start0 r]. simpl in Hsr.
  destruct (searchLoop_returns (r - start0)
              (λ c, negb <$> Less less data (mid + m - 1 - c) c) start0 r)
    as (start & -> & Hstart); [lia..| |].
  { intros c Hc. destruct (Less_in_range data (mid + m - 1 - c) c) as [x ->];
      [lia..|]. simpl. eauto. }
  simpl.
  set (end_ := mid + m - start).
  pose proof (keeps_bind n
    (λ d, if (start <? m) && (m <? end_) then rotate start m end_ d else Some d)
    (λ d1, (if (a <? start) && (start <? mid)
            then symMerge less f a start mid d1 else Some d1) ≫=
           (λ d2, if (mid <? end_) && (end_ <? b)
                  then symMerge less f mid end_ b d2 else Some d2))) as Hchain.
  apply Hchain; [| |done]; clear Hchain.
  - apply keeps_guard. intros [H1 H2]%andb_true_iff.
    apply Nat.ltb_lt in H1, H2. apply rotate_keeps; unfold end_ in *; lia.
  - apply (keeps_bind n
      (λ d1, if (a <? start) && (start <? mid)
             then symMerge less f a start mid d1 else Some d1)
      (λ d2, if (mid <? end_) && (end_ <? b)
             then symMerge less f mid end_ b d2 else Some d2)).
    + apply keeps_guard. intros [H1 H2]%andb_true_iff.
      apply Nat.ltb_lt in H1, H2. apply IH; lia.
    + apply keeps_guard. intros [H1 H2]%andb_true_iff.
      apply Nat.ltb_lt in H1, H2. apply IH; unfold end_ in *; lia.
Qed.

Lemma insertionBlocks_returns (n fuel a blockSize : nat) (data : list A) :
  0 < blockSize → a ≤ n → n ≤ fuel + a → length data = n →
  ∃ a' data', insertionBlocks less fuel a (a + blockSize) blockSize n data
              = Some (a', data')
    ∧ a' ≤ n ∧ length data' = n ∧ data' ≡ₚ data.
Proof.
  intros Hbs. revert a data.
  induction fuel as [|f IH]; intros a data Ha Hf Hlen; simpl.
  - destruct (Nat.leb_spec (a + blockSize) n); [lia|]. eauto 10.
  - destruct (Nat.leb_spec (a + blockSize) n); [|eauto 10].
    destruct (insertionSort_keeps n a (a + blockSize) ltac:(lia) data Hlen)
      as (d1 & -> & Hl1 & Hp1). simpl.
    destruct (IH (a + blockSize) d1) as (a' & d2 & -> & ? & ? & ?); [lia..|done|].
    exists a', d2. split; [done|]. split; [done|]. split; [done|]. by etrans.
Qed.

Lemma mergeBlocks_returns (n fuel a blockSize : nat) (data : list A) :
  0 < blockSize → a ≤ n → n ≤ fuel + a → length data = n →
  ∃ a' data', mergeBlocks less fuel a (a + 2 * blockSize) blockSize n data
              = Some (a', data')
    ∧ a' ≤ n ∧ length data' = n ∧ data' ≡ₚ data.
Proof.
  intros Hbs. revert a data.
  induction fuel as [|f IH]; intros a data Ha Hf Hlen; cbn [mergeBlocks].
  - destruct (Nat.leb_spec (a + 2 * blockSize) n); [lia|]. eauto 10.
  - destruct (Nat.leb_spec (a + 2 * blockSize) n); [|eauto 10].
    destruct (symMerge_keeps n (a + 2 * blockSize - a) a (a + blockSize)
                (a + 2 * blockSize) ltac:(lia) ltac:(lia) ltac:(lia) ltac:(lia)
                data Hlen) as (d1 & -> & Hl1 & Hp1). cbn [mbind option_bind].
    destruct (IH (a + 2 * blockSize) d1) as (a' & d2 & Heq & ? & ? & ?);
      [lia..|done|].
    rewrite Heq. exists a', d2. split; [done|]. split; [done|]. split; [done|].
    by etrans.
Qed.

Lemma mergePasses_keeps (n fuel blockSize : nat) :
  0 < blockSize → n ≤ fuel + blockSize →
  keeps (A:=A) n (mergePasses less fuel blockSize n).
Proof.
  revert blockSize. induction fuel as [|f IH]; intros bs Hbs Hf data Hlen;
    cbn [mergePasses].
  - destruct (Nat.ltb_spec bs n); [lia|]. eauto.
  - destruct (Nat.ltb_spec bs n); [|eauto].
    destruct (mergeBlocks_returns n n 0 bs data) as (a & d1 & Heq & Ha & Hl1 & Hp1);
      [lia..|done|].
    change (0 + 2 * bs) with (2 * bs) in Heq. rewrite Heq.
    cbn [mbind option_bind].
    assert (Hd2 : ∃ d2, (if a + bs <? n then symMerge less (n - a) a (a + bs) n d1
                         else Some d1) = Some d2 ∧ length d2 = n ∧ d2 ≡ₚ d1).
    { destruct (Nat.ltb_spec (a + bs) n); [|eauto].
      apply symMerge_keeps; [lia..|done]. }
    destruct Hd2 as (d2 & -> & Hl2 & Hp2). cbn [mbind option_bind].
    destruct (IH (bs * 2) ltac:(lia) ltac:(lia) d2 Hl2) as (d3 & -> & Hl3 & Hp3).
    exists d3. split; [done|]. split; [done|]. by repeat (etrans; [eassumption|]).
Qed.

(** Go's stable sort returns on every slice, and what it returns is a
    rearrangement of the slice: every index it reads or swaps is in range
    and every loop ends within the rounds the embedding allows it. *)
Lemma SliceStable_returns (data : list A) :
  ∃ data', SliceStable less data = Some data' ∧ data' ≡ₚ data.
Proof.
  unfold SliceStable, stable.
  destruct (insertionBlocks_returns (length data) (length data) 0 20 data)
    as (a & d1 & Heq & Ha & Hl1 & Hp1); [lia..|done|].
  simpl in Heq. rewrite Heq. simpl.
  destruct (insertionSort_keeps (length data) a (length data) ltac:(lia) d1 Hl1)
    as (d2 & -> & Hl2 & Hp2). simpl.
  destruct (mergePasses_keeps (length data) (length data) 20 ltac:(lia) ltac:(lia)
              d2 Hl2) as (d3 & -> & Hl3 & Hp3).
  exists d3. split; [done|]. by repeat (etrans; [eassumption|]).
Qed.


(** On two elements the sort is one round of the insertion loop: the
    second element moves in front exactly when it compares below the
    first. *)
Lemma SliceStable_two (x y : A) :
  SliceStable less [x; y] = Some (if less y x then [y; x] else [x; y]).
Proof.
  unfold SliceStable, stable, insertionSort, Less. simpl.
  destruct (less y x); reflexivity.
Qed.

End SliceFacts.

(** ** The comparison of [sortPosts] *)
Section OrderFacts.
Context {Tag : Type}.

Lemma lessPost_top_first (pi pj : Post.t Tag) :
  Post.Order pi = orderTop → lessPost pi pj = true.
Proof. intros H. unfold lessPost. by rewrite H. Qed.

Lemma lessPost_last_second (pi pj : Post.t Tag) :
  Post.Order pj = orderLast → lessPost pi pj = true.
Proof. intros H. unfold lessPost. rewrite H. simpl. by rewrite orb_true_r. Qed.

Lemma lessPost_default (pi pj : Post.t Tag) :
  Post.Order pi = orderDefault → Post.Order pj = orderDefault →
  lessPost pi pj = time.After (Post.Created pi) (Post.Created pj).
Proof. intros Hi Hj. unfold lessPost. by rewrite Hi, Hj. Qed.

(** C6. The comparison handed to the sort is not a strict weak ordering:
    there are two posts that both have order top, and two that both have
    order last, for which it answers true in both directions, so it is not
    asymmetric. *)
Theorem lessPost_not_asymmetric :
  (∃ a b : Post.t Tag,
      a ≠ b ∧ Post.Order a = orderTop ∧ Post.Order b = orderTop
      ∧ lessPost a b = true ∧ lessPost b a = true)
  ∧ (∃ a b : Post.t Tag,
      a ≠ b ∧ Post.Order a = orderLast ∧ Post.Order b = orderLast
      ∧ lessPost a b = true ∧ lessPost b a = true)
  ∧ ¬ asymmetric (lessPost (Tag:=Tag)).
Proof.
  split; [|split].
  - exists (Post.setSlug "a" (Post.setOrder orderTop Post.zero)),
           (Post.setSlug "b" (Post.setOrder orderTop Post.zero)).
    repeat split; try reflexivity. intros H. discriminate H.
  - exists (Post.setSlug "a" (Post.setOrder orderLast Post.zero)),
           (Post.setSlug "b" (Post.setOrder orderLast Post.zero)).
    repeat split; try reflexivity. intros H. discriminate H.
  - intros Hasym.
    specialize (Hasym (Post.setOrder orderTop Post.zero)
                      (Post.setOrder orderTop Post.zero) eq_refl).
    discriminate Hasym.
Qed.

(** C8. On two posts [A] and [B] where [B] was created after [A]: if [A]
    has order top and [B] order default the result is [A; B], and if both
    have order default the result is [B; A]; in each case whichever of the
    two comes first in the input. *)
Theorem sortPosts_two (A B : Post.t Tag) :
  time.After (Post.Created B) (Post.Created A) = true →
  (Post.Order A = orderTop → Post.Order B = orderDefault →
     sortPosts [A; B] = Some [A; B] ∧ sortPosts [B; A] = Some [A; B])
  ∧ (Post.Order A = orderDefault → Post.Order B = orderDefault →
     sortPosts [A; B] = Some [B; A] ∧ sortPosts [B; A] = Some [B; A]).
Proof.
  intros Hlater. unfold sortPosts. rewrite !SliceStable_two. split.
  - intros HA HB. unfold lessPost. rewrite HA, HB. done.
  - intros HA HB. rewrite !lessPost_default by done. rewrite Hlater.
    unfold time.After in *. apply Z.ltb_lt in Hlater.
    destruct (Z.ltb_spec (Post.Created B) (Post.Created A)); [lia|done].
Qed.

(** Two posts of the same pinned class leave the sort in the opposite
    order, whatever their creation times. *)
Lemma sortPosts_same_class_swapped (A B : Post.t Tag) :
  (Post.Order A = orderTop ∧ Post.Order B = orderTop)
  ∨ (Post.Order A = orderLast ∧ Post.Order B = orderLast) →
  sortPosts [A; B] = Some [B; A].
Proof.
  intros H. unfold sortPosts. rewrite SliceStable_two.
  destruct H as [[HA HB]|[HA HB]].
  - by rewrite lessPost_top_first.
  - by rewrite lessPost_last_second.
Qed.

End OrderFacts.

Lemma sortPosts_two_witness :
  (sortPosts [site.pinned1; site.postB] = Some [site.pinned1; site.postB]
   ∧ sortPosts [site.postB; site.pinned1] = Some [site.pinned1; site.postB])
  ∧ (sortPosts [site.postA; site.postB] = Some [site.postB; site.postA]
     ∧ sortPosts [site.postB; site.postA] = Some [site.postB; site.postA]).
Proof.
  split.
  - apply (sortPosts_two site.pinned1 site.postB); reflexivity.
  - apply (sortPosts_two site.postA site.postB); reflexivity.
Defined.

(** C1. The claim that posts with order top (and those with order last)
    keep their original relative order fails on the code: two validated
    posts with distinct slugs that both have order top come out of
    [sortPosts] swapped, and so do two that both have order last; the same
    happens to the pinned posts [p1] and [p2] of the site when [loadPosts]
    discovers them in that order. *)
Theorem sortPosts_reverses_pinned :
  sortPosts [site.pinned1; site.pinned2] = Some [site.pinned2; site.pinned1]
  ∧ sortPosts [site.last1; site.last2] = Some [site.last2; site.last1]
  ∧ loadPosts (site.world ["p1"; "p2"] site.noLinks) site.root
    = Some (inr [site.pinned2; site.pinned1]).
Proof. repeat split; vm_compute; reflexivity. Qed.

(** ** [loadPost] *)
Section PostFacts.
Context {Tag : Type}.
Variable w : extern.World.
Variable pth : path.Path.

Lemma length_zero (s : string) : (String.length s =? 0) = String.eqb s "".
Proof. by destruct s. Qed.

Lemma length_zero_iff (s : string) : (String.length s =? 0) = true ↔ s = "".
Proof. rewrite length_zero. apply String.eqb_eq. Qed.

(** C10. The post [loadPost] returns for a draft holds the decoded fields
    and nothing else: [Slug] is empty, [Created] and [Modified] are the zero
    time, [Content] is empty, [Permalink] and [HTMLTitle] still hold the raw
    texts of [created] and [modified], and [Order] is as written. *)
Theorem draft_post_is_raw (slug : string) (doc : PostMeta.t) :
  extern.LoadYAMLPost w (path.PostMetaPath pth slug) = inr doc →
  PostMeta.draft doc = true →
  ∃ post : Post.t Tag,
    loadPost w pth slug = inr post
    ∧ post = PostMeta.unmarshal doc Post.zero
    ∧ Post.Slug post = ""
    ∧ Post.Created post = time.zero
    ∧ Post.Modified post = time.zero
    ∧ Post.Content post = ""
    ∧ Post.Tags post = []
    ∧ Post.Outdated post = ""
    ∧ Post.Permalink post = PostMeta.created doc
    ∧ Post.HTMLTitle post = PostMeta.modified doc
    ∧ Post.Order post = PostMeta.order doc
    ∧ Post.Draft post = true.
Proof.
  intros Hload Hdraft. exists (PostMeta.unmarshal doc Post.zero).
  split; [|by repeat split].
  start_loadPost Hload Hdraft. reflexivity.
Qed.

(** C4, as the code has it.  For a post that is not a draft, a content
    file that cannot be read makes [loadPost] fail with a field error on
    the metadata file whose field is [path] and whose message is the read
    error; an empty content file makes it fail with field [content]. *)
Theorem content_failures (slug : string) (doc : PostMeta.t) :
  extern.LoadYAMLPost w (path.PostMetaPath pth slug) = inr doc →
  PostMeta.draft doc = false →
  (∀ msg, extern.ReadFile w (path.PostContentPath pth slug) = inl msg →
     loadPost (Tag:=Tag) w pth slug
     = inl (helper.IsFieldError
              (helper.mkFieldError (path.PostMetaPath pth slug) msg "path")))
  ∧ (extern.ReadFile w (path.PostContentPath pth slug) = inr "" →
     loadPost (Tag:=Tag) w pth slug
     = inl (helper.IsFieldError
              (helper.mkFieldError (path.PostMetaPath pth slug)
                 "不能为空" "content"))).
Proof.
  intros Hload Hdraft. split.
  - intros msg Hread. start_loadPost Hload Hdraft. by rewrite Hread.
  - intros Hread. start_loadPost Hload Hdraft. by rewrite Hread.
Qed.

(** C5. For a post that is not a draft, [loadPost] fails exactly when one
    of the checks does, taken in the fixed order content, created,
    modified, title, tags, order; the error is then a field error that
    carries the path of the metadata file, the field and the message of the
    first check that fails.  In particular, with readable, non-empty
    content, an unparsable [created] wins over an empty title. *)
Theorem first_failing_check (slug : string) (doc : PostMeta.t) :
  extern.LoadYAMLPost w (path.PostMetaPath pth slug) = inr doc →
  PostMeta.draft doc = false →
  (∀ field msg,
     spec_firstFailure w pth slug doc checksInOrder = Some (field, msg) →
     loadPost (Tag:=Tag) w pth slug
     = inl (helper.IsFieldError
              (helper.mkFieldError (path.PostMetaPath pth slug) msg field)))
  ∧ (spec_firstFailure w pth slug doc checksInOrder = None →
     ∃ post, loadPost (Tag:=Tag) w pth slug = inr post)
  ∧ (∀ data msg,
       extern.ReadFile w (path.PostContentPath pth slug) = inr data →
       data ≠ "" →
       extern.ParseDate w (PostMeta.created doc) = inl msg →
       PostMeta.title doc = "" →
       loadPost (Tag:=Tag) w pth slug
       = inl (helper.IsFieldError
                (helper.mkFieldError (path.PostMetaPath pth slug) msg "created"))).
Proof.
  intros Hload Hdraft.
  assert (Hmain : loadPost (Tag:=Tag) w pth slug
    = match spec_firstFailure w pth slug doc checksInOrder with
      | Some (field, msg) =>
          inl (helper.IsFieldError
                 (helper.mkFieldError (path.PostMetaPath pth slug) msg field))
      | None => loadPost w pth slug
      end
    ∧ (spec_firstFailure w pth slug doc checksInOrder = None →
       ∃ post, loadPost (Tag:=Tag) w pth slug = inr post)).
  { start_loadPost Hload Hdraft. unfold fieldError.
    destruct (extern.ReadFile w _) as [msg|data]; [done|].
    rewrite length_zero. destruct (String.eqb data ""); [done|]. cbn.
    destruct (extern.ParseDate w (PostMeta.created doc)) as [msg|created];
      [done|]. cbn.
    destruct (extern.ParseDate w (PostMeta.modified doc)) as [msg|modified];
      [done|]. cbn.
    rewrite !length_zero.
    destruct (String.eqb (PostMeta.title doc) ""); [done|].
    destruct (String.eqb (PostMeta.tags doc) ""); [done|].
    destruct (String.eqb (PostMeta.keywords doc) ""); cbn;
      destruct (String.eqb (PostMeta.template doc) ""); cbn;
      rewrite ?length_zero;
      destruct (String.eqb (PostMeta.order doc) ""); cbn; eauto;
      destruct (String.eqb (PostMeta.order doc) orderTop); cbn;
      rewrite ?andb_false_r; eauto;
      destruct (String.eqb (PostMeta.order doc) orderLast); cbn;
      rewrite ?andb_false_r; eauto;
      destruct (String.eqb (PostMeta.order doc) orderDefault); cbn; eauto;
      by split. }
  destruct Hmain as [Hmain Hnone]. split; [|split].
  - intros field msg Hfirst. rewrite Hmain, Hfirst. done.
  - done.
  - intros data msg Hread Hdata Hcreated Htitle.
    rewrite Hmain. cbn. rewrite Hread, Hcreated.
    apply String.eqb_neq in Hdata. by rewrite Hdata.
Qed.

Lemma validOrder_eqb (o : string) :
  String.eqb o orderTop || String.eqb o orderLast || String.eqb o orderDefault
  = true ↔ validOrder o.
Proof.
  unfold validOrder. rewrite !orb_true_iff, !String.eqb_eq. tauto.
Qed.

(** What [loadPost] has established about a post it returns that is not a
    draft. *)
Lemma loadPost_published (slug : string) (post : Post.t Tag) :
  loadPost w pth slug = inr post → Post.Draft post = false →
  Post.Slug post = slug ∧ validOrder (Post.Order post)
  ∧ ∃ doc, extern.LoadYAMLPost w (path.PostMetaPath pth slug) = inr doc
           ∧ PostMeta.draft doc = false.
Proof.
  unfold loadPost. intros H Hd.
  destruct (extern.LoadYAMLPost w _) as [e|doc] eqn:Hload; [done|].
  cbn in H. destruct (PostMeta.draft doc) eqn:Hdraft.
  { simplify_eq. cbn in Hd. congruence. }
  destruct (extern.ReadFile w _) as [msg|data]; [done|].
  destruct (String.length data =? 0); [done|]. cbn in H.
  destruct (extern.ParseDate w (PostMeta.created doc)); [done|]. cbn in H.
  destruct (extern.ParseDate w (PostMeta.modified doc)); [done|]. cbn in H.
  destruct (String.length (PostMeta.title doc) =? 0); [done|].
  destruct (String.length (PostMeta.tags doc) =? 0); [done|].
  destruct (String.length (PostMeta.keywords doc) =? 0); cbn in H;
    destruct (String.length (PostMeta.template doc) =? 0); cbn in H;
    destruct (String.length (PostMeta.order doc) =? 0); cbn in H;
    try (simplify_eq; cbn; split; [done|]; split; [|by eauto];
         unfold validOrder; by auto);
    destruct (negb (String.eqb (PostMeta.order doc) orderDefault)
              && negb (String.eqb (PostMeta.order doc) orderLast)
              && negb (String.eqb (PostMeta.order doc) orderTop)) eqn:Hvalid;
    try done; simplify_eq; cbn; (split; [done|]; split; [|by eauto]);
    apply validOrder_eqb;
    destruct (String.eqb (PostMeta.order doc) orderDefault),
             (String.eqb (PostMeta.order doc) orderLast),
             (String.eqb (PostMeta.order doc) orderTop); done.
Qed.

(** ** [loadPosts] *)

Lemma loadEach_inr (slugs : list string) (acc posts : list (Post.t Tag)) :
  loadEach w pth slugs acc = inr posts →
  ∃ loaded, posts = (acc ++ loaded)%list
    ∧ Forall (λ post, Post.Draft post = false
                      ∧ ∃ slug, slug ∈ slugs ∧ loadPost w pth slug = inr post)
             loaded.
Proof.
  revert acc. induction slugs as [|slug rest IH]; intros acc H; simpl in H.
  - exists []. simplify_eq. split; [by rewrite app_nil_r|constructor].
  - destruct (loadPost w pth slug) as [e|post] eqn:Hpost; [done|].
    destruct (IH _ H) as (loaded & -> & Hall).
    assert (Hrest : Forall (λ post, Post.Draft post = false
                ∧ ∃ slug0, slug0 ∈ slug :: rest ∧ loadPost w pth slug0 = inr post)
              loaded).
    { eapply Forall_impl; [exact Hall|]. intros p (? & s & ? & ?).
      split; [done|]. exists s. split; [by right|done]. }
    destruct (Post.Draft post) eqn:Hdraft.
    + exists loaded. done.
    + exists (post :: loaded). split; [by rewrite <- app_assoc|].
      constructor; [|done]. split; [done|]. exists slug. split; [by left|done].
Qed.

Lemma count_zero (posts : list (Post.t Tag)) (slug : string) :
  count posts slug = 0 → slug ∉ Post.Slug <$> posts.
Proof.
  induction posts as [|p rest IH]; simpl; intros H.
  - apply not_elem_of_nil.
  - destruct (String.eqb_spec (Post.Slug p) slug); [lia|].
    rewrite not_elem_of_cons. split; [done|]. apply IH. lia.
Qed.


Lemma count_le_one_NoDup (posts : list (Post.t Tag)) :
  (∀ post, post ∈ posts → count posts (Post.Slug post) ≤ 1) →
  NoDup (Post.Slug <$> posts).
Proof.
  induction posts as [|p rest IH]; intros H; simpl.
  - constructor.
  - constructor.
    + apply count_zero. specialize (H p ltac:(by left)). simpl in H.
      rewrite String.eqb_refl in H. lia.
    + apply IH. intros q Hq. specialize (H q ltac:(by right)). simpl in H.
      destruct (String.eqb (Post.Slug p) (Post.Slug q)); lia.
Qed.

Lemma checkEach_None (posts rest : list (Post.t Tag)) :
  checkEach posts rest = None →
  ∀ post, post ∈ rest → count posts (Post.Slug post) ≤ 1.
Proof.
  induction rest as [|p rest' IH]; simpl; intros H q Hq.
  - by apply elem_of_nil in Hq.
  - destruct (Nat.ltb_spec 1 (count posts (Post.Slug p))); [done|].
    apply elem_of_cons in Hq as [->|Hq]; [lia|by apply IH].
Qed.


Lemma checkPostsDup_None (posts : list (Post.t Tag)) :
  checkPostsDup posts = None → NoDup (Post.Slug <$> posts).
Proof.
  intros H. apply count_le_one_NoDup. by apply checkEach_None.
Qed.


(** [loadPosts] always returns: the posts, or an error. *)
Lemma loadPosts_returns : ∃ r, loadPosts (Tag:=Tag) w pth = Some r.
Proof.
  unfold loadPosts.
  destruct (Walk w pth _ []) as [e|slugs]; [eauto|].
  destruct (loadEach w pth slugs []) as [e|posts]; [eauto|].
  destruct (checkPostsDup posts) as [e|]; [eauto|].
  unfold sortPosts.
  destruct (SliceStable_returns lessPost posts) as (sorted & -> & _).
  simpl. eauto.
Qed.

(** The posts [loadPosts] returns are the loaded posts that are not
    drafts, with no slug twice, in the order the sort leaves them. *)
Lemma loadPosts_inr (posts : list (Post.t Tag)) :
  loadPosts w pth = Some (inr posts) →
  ∃ slugs loaded,
    Walk w pth (extern.WalkVisits w (path.PostsDir pth)) [] = inr slugs
    ∧ loadEach w pth slugs [] = inr loaded
    ∧ checkPostsDup loaded = None
    ∧ sortPosts loaded = Some posts
    ∧ posts ≡ₚ loaded.
Proof.
  unfold loadPosts. intros H.
  destruct (Walk w pth _ []) as [e|slugs]; [done|].
  destruct (loadEach w pth slugs []) as [e|loaded] eqn:Hloaded; [done|].
  destruct (checkPostsDup loaded) as [e|] eqn:Hcheck; [done|].
  destruct (sortPosts loaded) as [sorted|] eqn:Hsort; [|done].
  simpl in H. simplify_eq. exists slugs, loaded. repeat split; try done.
  unfold sortPosts in Hsort.
  destruct (SliceStable_returns lessPost loaded) as (sorted & Heq & Hperm).
  congruence.
Qed.

Lemma loadPosts_published (posts : list (Post.t Tag)) (post : Post.t Tag) :
  loadPosts w pth = Some (inr posts) → post ∈ posts →
  Post.Draft post = false
  ∧ ∃ slug, loadPost w pth slug = inr post.
Proof.
  intros H Hin.
  destruct (loadPosts_inr posts H) as (slugs & loaded & _ & Hload & _ & _ & Hperm).
  destruct (loadEach_inr _ _ _ Hload) as (loaded' & -> & Hall).
  rewrite Hperm in Hin. simpl in Hin.
  rewrite Forall_forall in Hall. destruct (Hall post Hin) as (? & s & ? & ?).
  eauto.
Qed.


(** C3. When the metadata of [slug] decodes with [draft = true],
    [loadPost] returns the decoded fields as they are, whatever the content
    file, the timestamps and the other fields hold: nothing is assumed of
    reading the content or of parsing, and any other state of the world
    with the same metadata gives the same result.  In [loadPosts] the slug
    leaves the loading loop as it found it, and no post of the returned
    collection is a draft or carries that slug. *)
Theorem draft_is_skipped (slug : string) (doc : PostMeta.t) :
  extern.LoadYAMLPost w (path.PostMetaPath pth slug) = inr doc →
  PostMeta.draft doc = true →
  loadPost (Tag:=Tag) w pth slug = inr (PostMeta.unmarshal doc Post.zero)
  ∧ (∀ w' : extern.World,
       extern.LoadYAMLPost w' (path.PostMetaPath pth slug) = inr doc →
       loadPost (Tag:=Tag) w' pth slug = loadPost w pth slug)
  ∧ (∀ rest posts,
       loadEach (Tag:=Tag) w pth (slug :: rest) posts = loadEach w pth rest posts)
  ∧ (∀ posts, loadPosts (Tag:=Tag) w pth = Some (inr posts) →
       ∀ post, post ∈ posts →
         Post.Draft post = false ∧ Post.Slug post ≠ slug).
Proof.
  intros Hload Hdraft.
  assert (Hpost : loadPost (Tag:=Tag) w pth slug
                  = inr (PostMeta.unmarshal doc Post.zero)).
  { start_loadPost Hload Hdraft. reflexivity. }
  split; [done|]. split; [|split].
  - intros w' Hload'. rewrite Hpost. unfold loadPost. rewrite Hload'. cbn.
    by rewrite Hdraft.
  - intros rest posts. simpl. rewrite Hpost. cbn. by rewrite Hdraft.
  - intros posts Hposts post Hin.
    destruct (loadPosts_published posts post Hposts Hin) as (Hd & s & Hs).
    split; [done|]. intros Heq.
    destruct (loadPost_published s post Hs Hd) as (Hslug & _ & doc' & Hload' & Hd').
    rewrite Heq in Hslug. subst s. congruence.
Qed.


End PostFacts.

(** ** Decimal numerals: what [strconv.Itoa] writes *)

Lemma append_cons (c : ascii) (s t : string) :
  String c s +:+ t = String c (s +:+ t).
Proof. reflexivity. Qed.

Lemma append_assoc (s t u : string) : (s +:+ t) +:+ u = s +:+ (t +:+ u).
Proof. induction s as [|c s IH]; [done|]. by rewrite !append_cons, IH. Qed.

Lemma decimalValue_app (acc : N) (s t : string) :
  decimalValue acc (s +:+ t) = decimalValue acc s ≫= λ v, decimalValue v t.
Proof.
  revert acc. induction s as [|c s IH]; intros acc; [done|].
  rewrite append_cons. cbn [decimalValue].
  destruct (digitValue c); [apply IH|done].
Qed.

Lemma digitValue_char (d : N) :
  (d < 10)%N → digitValue (pretty_N_char d) = Some d.
Proof.
  intros Hd.
  assert (d = 0 ∨ d = 1 ∨ d = 2 ∨ d = 3 ∨ d = 4 ∨ d = 5 ∨ d = 6 ∨ d = 7
          ∨ d = 8 ∨ d = 9)%N as Hcases by lia.
  repeat destruct Hcases as [->|Hcases]; try reflexivity. by subst.
Qed.

Lemma pretty_N_go_app (x : N) (s : string) :
  pretty_N_go x s = pretty_N_go x "" +:+ s.
Proof.
  revert s. induction (N.lt_wf_0 x) as [x _ IH]; intros s.
  destruct (decide (x = 0)%N) as [->|Hx]; [done|].
  assert (Hlt : (x `div` 10 < x)%N) by (apply N.div_lt; lia).
  rewrite !(pretty_N_go_step x) by lia.
  rewrite (IH _ Hlt (String (pretty_N_char (x `mod` 10)) s)).
  rewrite (IH _ Hlt (String (pretty_N_char (x `mod` 10)) "")).
  by rewrite append_assoc.
Qed.

Lemma pretty_N_go_snoc (x : N) :
  (0 < x)%N →
  pretty_N_go x ""
  = pretty_N_go (x `div` 10) "" +:+ String (pretty_N_char (x `mod` 10)) "".
Proof. intros Hx. by rewrite pretty_N_go_step, pretty_N_go_app. Qed.

Lemma pretty_N_go_value (x : N) : decimalValue 0 (pretty_N_go x "") = Some x.
Proof.
  induction (N.lt_wf_0 x) as [x _ IH].
  destruct (decide (x = 0)%N) as [->|Hx]; [done|].
  rewrite pretty_N_go_snoc, decimalValue_app by lia.
  rewrite IH by (apply N.div_lt; lia). cbn [mbind option_bind decimalValue].
  rewrite digitValue_char by (apply N.mod_lt; lia).
  f_equal. pose proof (N.div_mod x 10). lia.
Qed.

Lemma pretty_N_go_head (x : N) :
  x ≠ 0%N → ∃ a t, pretty_N_go x "" = String a t ∧ a ≠ "0"%char.
Proof.
  induction (N.lt_wf_0 x) as [x _ IH]. intros Hx.
  rewrite pretty_N_go_snoc by lia.
  destruct (decide (x `div` 10 = 0)%N) as [Hq|Hq].
  - rewrite Hq. eexists _, _. split; [reflexivity|].
    assert (x < 10)%N by (apply N.div_small_iff in Hq; lia).
    rewrite N.mod_small by done.
    assert (x = 1 ∨ x = 2 ∨ x = 3 ∨ x = 4 ∨ x = 5 ∨ x = 6 ∨ x = 7
            ∨ x = 8 ∨ x = 9)%N as Hcases by lia.
    repeat destruct Hcases as [->|Hcases]; try done. by subst.
  - destruct (IH (x `div` 10)%N) as (a & t & -> & Ha); [apply N.div_lt; lia|done|].
    rewrite append_cons. eauto.
Qed.

Lemma pretty_numeral (i : nat) : numeralOf i (pretty i).
Proof.
  unfold numeralOf, pretty, pretty_nat, pretty, pretty_N.
  destruct (decide (N.of_nat i = 0)%N) as [Hi|Hi].
  - rewrite Hi. split; [done|]. split; [done|].
    intros rest H. by injection H.
  - destruct (pretty_N_go_head _ Hi) as (a & t & Hat & Ha).
    split; [by rewrite Hat|]. split; [apply pretty_N_go_value|].
    intros rest H. rewrite Hat in H. injection H as -> _. done.
Qed.

(** [strconv.Itoa] writes the decimal numeral of an index. *)
Lemma Itoa_numeral (i : nat) : numeralOf i (strings.Itoa i).
Proof. apply pretty_numeral. Qed.

(** ** [loadLinks] *)
Section LinkFacts.
Variable w : extern.World.
Variable pth : path.Path.

Lemma sanitize_None (link : Link.t) :
  Link.sanitize link = None ↔ Link.Text link ≠ "" ∧ Link.URL link ≠ "".
Proof.
  unfold Link.sanitize.
  destruct (Link.Text link) as [|c t]; simpl; [split; [done|tauto]|].
  destruct (Link.URL link) as [|c' u]; simpl; [split; [done|tauto]|].
  done.
Qed.

Lemma sanitize_Some (link : Link.t) (e : helper.FieldError) :
  Link.sanitize link = Some e →
  e = helper.mkFieldError "" "不能为空"
        (if String.eqb (Link.Text link) "" then "text" else "url")
  ∧ (Link.Text link = "" ∨ Link.URL link = "").
Proof.
  unfold Link.sanitize.
  destruct (Link.Text link) as [|c t]; simpl; [intros; simplify_eq; auto|].
  destruct (Link.URL link) as [|c' u]; simpl; [intros; simplify_eq; auto|].
  done.
Qed.

Lemma sanitizeLinks_None (index : nat) (links : list Link.t) :
  sanitizeLinks pth index links = None ↔
  Forall (λ link, Link.Text link ≠ "" ∧ Link.URL link ≠ "") links.
Proof.
  revert index. induction links as [|link rest IH]; intros index; simpl.
  - split; [constructor|done].
  - rewrite Forall_cons, <- sanitize_None, <- (IH (S index)).
    destruct (Link.sanitize link); [split; [done|by intros []]|tauto].
Qed.

Lemma sanitizeLinks_Some (index : nat) (links : list Link.t)
    (e : helper.FieldError) :
  sanitizeLinks pth index links = Some e →
  ∃ i link,
    links !! i = Some link
    ∧ (∀ j earlier, j < i → links !! j = Some earlier →
         Link.Text earlier ≠ "" ∧ Link.URL earlier ≠ "")
    ∧ (Link.Text link = "" ∨ Link.URL link = "")
    ∧ e = helper.mkFieldError (path.MetaLinksFile pth) "不能为空"
            ("[" +:+ strings.Itoa (index + i) +:+ "]."
             +:+ (if String.eqb (Link.Text link) "" then "text" else "url")).
Proof.
  revert index. induction links as [|link rest IH]; intros index; simpl; [done|].
  destruct (Link.sanitize link) as [e'|] eqn:Hlink.
  - intros He. simplify_eq. destruct (sanitize_Some _ _ Hlink) as [-> Hbad].
    exists 0, link. split; [done|]. split; [intros; lia|]. split; [done|].
    simpl. by rewrite Nat.add_0_r.
  - intros He. destruct (IH _ He) as (i & l & Hl & Hbefore & Hbad & ->).
    exists (S i), l. split; [done|]. split; [|split; [done|]].
    + intros [|j] earlier Hj Hearlier; simpl in Hearlier.
      * simplify_eq. by apply sanitize_None.
      * apply (Hbefore j); [lia|done].
    + by replace (S index + i) with (index + S i) by lia.
Qed.

(** C9. [loadLinks] fails exactly when the links file cannot be loaded or
    some entry has an empty text or an empty address.  On such an entry the
    error is on the links file, and its field is the position of the first
    offending entry, counted from zero and written as its decimal numeral,
    in brackets, followed by [.text] or [.url]; when [loadLinks] succeeds
    every link has an address and a text. *)
Theorem loadLinks_checks_every_link :
  ((∃ e, loadLinks w pth = inl e) ↔
     (∃ e, extern.LoadYAMLLinks w (path.MetaLinksFile pth) = inl e)
     ∨ (∃ links link,
          extern.LoadYAMLLinks w (path.MetaLinksFile pth) = inr links
          ∧ link ∈ links ∧ (Link.Text link = "" ∨ Link.URL link = "")))
  ∧ (∀ links e,
       extern.LoadYAMLLinks w (path.MetaLinksFile pth) = inr links →
       loadLinks w pth = inl e →
       ∃ i link,
         links !! i = Some link
         ∧ (∀ j earlier, j < i → links !! j = Some earlier →
              Link.Text earlier ≠ "" ∧ Link.URL earlier ≠ "")
         ∧ (Link.Text link = "" ∨ Link.URL link = "")
         ∧ e = helper.IsFieldError
                 (helper.mkFieldError (path.MetaLinksFile pth) "不能为空"
                    ("[" +:+ strings.Itoa i +:+ "]."
                     +:+ (if String.eqb (Link.Text link) ""
                          then "text" else "url")))
         ∧ numeralOf i (strings.Itoa i))
  ∧ (∀ links, loadLinks w pth = inr links →
       ∀ link, link ∈ links → Link.URL link ≠ "" ∧ Link.Text link ≠ "").
Proof.
  unfold loadLinks. split; [|split].
  - destruct (extern.LoadYAMLLinks w _) as [e|links]; [split; eauto|].
    destruct (sanitizeLinks pth 0 links) as [e|] eqn:Hcheck.
    + split; [intros _|eauto]. right.
      destruct (sanitizeLinks_Some _ _ _ Hcheck) as (i & link & Hi & _ & Hbad & _).
      exists links, link. split; [done|]. split; [|done].
      by apply list_elem_of_lookup_2 in Hi.
    + split; [by intros [e ?]|]. intros [[e ?]|(links' & link & ? & Hin & Hbad)];
        [done|]. simplify_eq.
      apply sanitizeLinks_None in Hcheck. rewrite Forall_forall in Hcheck.
      destruct (Hcheck link Hin). tauto.
  - intros links e ->.
    destruct (sanitizeLinks pth 0 links) as [e'|] eqn:Hcheck; [|done].
    intros He. simplify_eq.
    destruct (sanitizeLinks_Some _ _ _ Hcheck) as (i & link & ? & ? & ? & ->).
    exists i, link. repeat (split; [done|]). apply Itoa_numeral.
  - intros links.
    destruct (extern.LoadYAMLLinks w _) as [e|links']; [done|].
    destruct (sanitizeLinks pth 0 links') as [e'|] eqn:Hcheck; [done|].
    intros ? link Hin. simplify_eq.
    apply sanitizeLinks_None in Hcheck. rewrite Forall_forall in Hcheck.
    destruct (Hcheck link Hin). done.
Qed.

End LinkFacts.

(** ** The theorems on the small site *)


Lemma draft_is_skipped_witness :
  extern.ReadFile (site.world ["a"; "d"] site.noLinks)
    (path.PostContentPath site.root "d")
  = inl "read posts/d/content.html: permission denied"
  ∧ extern.ParseDate (site.world ["a"; "d"] site.noLinks) "soon"
    = inl "parsing time: cannot parse soon"
  ∧ loadPosts (Tag:=site.Tag) (site.world ["a"; "d"] site.noLinks) site.root
    = Some (inr [site.postA])
  ∧ loadPost (Tag:=site.Tag) (site.world ["a"; "d"] site.noLinks) site.root "d"
    = inr (PostMeta.unmarshal (site.meta "" "later" "soon" "middle" true)
             Post.zero)
  ∧ (∀ w' : extern.World,
       extern.LoadYAMLPost w' (path.PostMetaPath site.root "d")
       = inr (site.meta "" "later" "soon" "middle" true) →
       loadPost (Tag:=site.Tag) w' site.root "d"
       = loadPost (site.world ["a"; "d"] site.noLinks) site.root "d")
  ∧ (∀ rest posts,
       loadEach (Tag:=site.Tag) (site.world ["a"; "d"] site.noLinks) site.root
         ("d" :: rest) posts
       = loadEach (site.world ["a"; "d"] site.noLinks) site.root rest posts)
  ∧ (∀ posts,
       loadPosts (Tag:=site.Tag) (site.world ["a"; "d"] site.noLinks) site.root
       = Some (inr posts) →
       ∀ post, post ∈ posts →
         Post.Draft post = false ∧ Post.Slug post ≠ "d").
Proof.
  split; [reflexivity|]. split; [reflexivity|].
  split; [vm_compute; reflexivity|].
  apply (draft_is_skipped (site.world ["a"; "d"] site.noLinks) site.root "d"
           (site.meta "" "later" "soon" "middle" true)); reflexivity.
Defined.

Lemma draft_post_is_raw_witness :
  ¬ validOrder "middle"
  ∧ ∃ post : Post.t site.Tag,
      loadPost (site.world [] site.noLinks) site.root "d" = inr post
      ∧ post = PostMeta.unmarshal (site.meta "" "later" "soon" "middle" true)
                 Post.zero
      ∧ Post.Slug post = ""
      ∧ Post.Created post = time.zero
      ∧ Post.Modified post = time.zero
      ∧ Post.Content post = ""
      ∧ Post.Tags post = []
      ∧ Post.Outdated post = ""
      ∧ Post.Permalink post = "soon"
      ∧ Post.HTMLTitle post = "later"
      ∧ Post.Order post = "middle"
      ∧ Post.Draft post = true.
Proof.
  split.
  - intros [H|[H|H]]; discriminate H.
  - apply (draft_post_is_raw (site.world [] site.noLinks) site.root "d"
             (site.meta "" "later" "soon" "middle" true)); reflexivity.
Defined.

(** C4, as stated, fails on the code: the post [u] of the site is not a
    draft and its content file cannot be read, and [loadPost] fails with a
    field error whose field is [path], not [content]. *)
Lemma unreadable_content_is_path_error :
  ∃ doc msg e,
    extern.LoadYAMLPost (site.world [] site.noLinks)
      (path.PostMetaPath site.root "u") = inr doc
    ∧ PostMeta.draft doc = false
    ∧ extern.ReadFile (site.world [] site.noLinks)
        (path.PostContentPath site.root "u") = inl msg
    ∧ loadPost (Tag:=site.Tag) (site.world [] site.noLinks) site.root "u"
      = inl (helper.IsFieldError e)
    ∧ helper.Field e = "path"
    ∧ helper.Field e ≠ "content".
Proof.
  eexists _, _, _. repeat split; try reflexivity. intros H. discriminate H.
Qed.

Lemma content_failures_witness :
  loadPost (Tag:=site.Tag) (site.world [] site.noLinks) site.root "u"
  = inl (helper.IsFieldError
           (helper.mkFieldError "posts/u/meta.yaml"
              "read posts/u/content.html: permission denied" "path"))
  ∧ loadPost (Tag:=site.Tag) (site.world [] site.noLinks) site.root "e"
    = inl (helper.IsFieldError
             (helper.mkFieldError "posts/e/meta.yaml" "不能为空" "content")).
Proof.
  split.
  - apply (proj1 (content_failures (Tag:=site.Tag)
             (site.world [] site.noLinks) site.root "u"
             (site.meta "Unreadable" "2023-01-01T00:00:00Z"
                "2023-01-01T00:00:00Z" "" false) eq_refl eq_refl)).
    reflexivity.
  - apply (proj2 (content_failures (Tag:=site.Tag)
             (site.world [] site.noLinks) site.root "e"
             (site.meta "Empty" "2023-01-01T00:00:00Z"
                "2023-01-01T00:00:00Z" "" false) eq_refl eq_refl)).
    reflexivity.
Defined.

Lemma first_failing_check_witness :
  PostMeta.title (site.meta "" "2023-01-01T00:00:00Z" "soon" "" false) = ""
  ∧ loadPost (Tag:=site.Tag) (site.world [] site.noLinks) site.root "x"
    = inl (helper.IsFieldError
             (helper.mkFieldError "posts/x/meta.yaml"
                "parsing time: cannot parse soon" "created"))
  ∧ ∃ post,
      loadPost (Tag:=site.Tag) (site.world [] site.noLinks) site.root "a"
      = inr post.
Proof.
  split; [reflexivity|]. split.
  - apply (proj1 (first_failing_check (Tag:=site.Tag)
             (site.world [] site.noLinks) site.root "x"
             (site.meta "" "2023-01-01T00:00:00Z" "soon" "" false)
             eq_refl eq_refl)).
    reflexivity.
  - apply (proj1 (proj2 (first_failing_check (Tag:=site.Tag)
             (site.world [] site.noLinks) site.root "a"
             (site.meta "First" "2023-01-01T00:00:00Z" "2023-01-01T00:00:00Z"
                "" false)
             eq_refl eq_refl))).
    reflexivity.
Defined.



Lemma loadLinks_checks_every_link_witness :
  (∃ e, loadLinks (site.world [] (inr site.badLinks)) site.root = inl e)
  ∧ loadLinks (site.world [] (inr site.badLinks)) site.root
    = inl (helper.IsFieldError
             (helper.mkFieldError "meta/links.yaml" "不能为空" "[2].url"))
  ∧ loadLinks (site.world [] (inr firstBadLinks)) site.root
    = inl (helper.IsFieldError
             (helper.mkFieldError "meta/links.yaml" "不能为空" "[0].text"))
  ∧ loadLinks (site.world [] (inr lateBadLinks)) site.root
    = inl (helper.IsFieldError
             (helper.mkFieldError "meta/links.yaml" "不能为空" "[12].url"))
  ∧ (∀ link, link ∈ site.goodLinks →
       Link.URL link ≠ "" ∧ Link.Text link ≠ "").
Proof.
  split; [|split; [|split; [|split]]].
  - apply (proj1 (loadLinks_checks_every_link
                    (site.world [] (inr site.badLinks)) site.root)).
    right. exists site.badLinks, (site.link "" "Nowhere").
    split; [reflexivity|]. split; [|by right].
    apply list_elem_of_In. simpl. tauto.
  - reflexivity.
  - reflexivity.
  - vm_compute. reflexivity.
  - apply (proj2 (proj2 (loadLinks_checks_every_link
                    (site.world [] (inr site.goodLinks)) site.root))).
    reflexivity.
Defined.

(** * Further facts *)

Open Scope list_scope.

(** ** The insertion loop, on lists *)
Section InsertionFacts.
Context {A : Type}.
Variable less : A → A → bool.
Import gosort.

Lemma insert_snoc (run : list A) (x y : A) :
  insertion.insert less (run ++ [y]) x
  = if less x y then insertion.insert less run x ++ [y] else run ++ [y; x].
Proof.
  unfold insertion.insert. rewrite reverse_snoc. simpl.
  destruct (less x y).
  - by rewrite reverse_cons.
  - by rewrite !reverse_cons, reverse_involutive, <- app_assoc.
Qed.

Lemma length_sink (x : A) (nearest : list A) :
  length (insertion.sink less x nearest) = S (length nearest).
Proof.
  induction nearest as [|y rest IH]; simpl; [done|].
  destruct (less x y); simpl; by rewrite ?IH.
Qed.

Lemma length_insert_run (run : list A) (x : A) :
  length (insertion.insert less run x) = S (length run).
Proof.
  unfold insertion.insert. by rewrite length_reverse, length_sink, length_reverse.
Qed.

(** One run of the inner loop from position [length run]: the element
    there sinks into the run before it. *)
Lemma insertionInner_sinks (run : list A) (x : A) (rest : list A) :
  insertionInner less 0 (length run) (run ++ x :: rest)
  = Some (insertion.insert less run x ++ rest).
Proof.
  revert rest. induction run as [|y run IH] using rev_ind; intros rest.
  - reflexivity.
  - rewrite length_app, Nat.add_1_r. cbn [insertionInner].
    change (0 <? S (length run)) with true. cbv iota.
    assert (Hx : ((run ++ [y]) ++ x :: rest) !! S (length run) = Some x).
    { replace (S (length run)) with (length (run ++ [y]))
        by (rewrite length_app; simpl; lia).
      apply list_lookup_middle. done. }
    assert (Hy : ((run ++ [y]) ++ x :: rest) !! length run = Some y).
    { rewrite <- app_assoc. by apply list_lookup_middle. }
    unfold Less, Swap. rewrite Hx, Hy. cbn [mbind option_bind].
    rewrite insert_snoc. destruct (less x y).
    + cbn [mbind option_bind].
      replace (<[length run:=x]> (<[S (length run):=y]> ((run ++ [y]) ++ x :: rest)))
        with (run ++ x :: y :: rest).
      * rewrite IH. by rewrite <- app_assoc.
      * rewrite <- !app_assoc. simpl.
        rewrite (insert_app_r_alt run _ (S (length run))) by lia.
        replace (S (length run) - length run) with 1 by lia. simpl.
        rewrite (insert_app_r_alt run _ (length run)) by lia.
        by rewrite Nat.sub_diag.
    + by rewrite <- !app_assoc.
Qed.

Lemma forUp_insertionInner (count : nat) (run rest : list A) :
  count ≤ length rest →
  forUp count (length run) (insertionInner less 0) (run ++ rest)
  = Some (foldl (insertion.insert less) run (take count rest) ++ drop count rest).
Proof.
  revert run rest. induction count as [|c IH]; intros run rest Hc.
  - simpl. by rewrite drop_0.
  - destruct rest as [|x rest]; [simpl in Hc; lia|].
    cbn [forUp]. rewrite insertionInner_sinks. cbn [mbind option_bind].
    rewrite <- (length_insert_run run x). rewrite IH by (simpl in Hc; lia).
    done.
Qed.

Lemma insertionSort_whole (l : list A) :
  insertionSort less 0 (length l) l = Some (insertion.sorted less l).
Proof.
  unfold insertionSort, insertion.sorted. destruct l as [|x rest]; [done|].
  simpl length. replace (S (length rest) - (0 + 1)) with (length rest) by lia.
  pose proof (forUp_insertionInner (length rest) [x] rest ltac:(lia)) as H.
  simpl in H. rewrite firstn_all, drop_all, app_nil_r in H.
  exact H.
Qed.

Lemma length_sorted (l : list A) :
  length (insertion.sorted less l) = length l.
Proof.
  unfold insertion.sorted.
  assert (∀ run, length (foldl (insertion.insert less) run l)
                 = length run + length l) as H.
  { induction l as [|x l IH]; intros run; simpl; [lia|].
    rewrite IH, length_insert_run. lia. }
  by rewrite H.
Qed.

(** On a slice of at most twenty elements [SliceStable] is the insertion
    loop alone. *)
Lemma SliceStable_small (l : list A) :
  length l ≤ 20 → SliceStable less l = Some (insertion.sorted less l).
Proof.
  intros Hlen. unfold SliceStable, stable.
  pose proof (insertionSort_whole l) as Hsort.
  pose proof (length_sorted l) as Hlen'.
  remember (length l) as n eqn:Hn.
  assert (Hpass : ∀ fuel data, mergePasses less fuel 20 n data = Some data).
  { assert (H20 : (20 <? n) = false) by (apply Nat.ltb_ge; lia).
    intros [|f] data; cbn [mergePasses]; by rewrite H20. }
  destruct (decide (n = 20)) as [->|Hne].
  - cbn [insertionBlocks]. change (20 <=? 20) with true. cbv iota.
    rewrite Hsort. cbn [mbind option_bind].
    cbn [insertionBlocks]. change (20 + 20 <=? 20) with false. cbv iota.
    cbn [mbind option_bind]. unfold insertionSort at 1.
    change (20 - (20 + 1)) with 0. cbn [forUp mbind option_bind].
    apply Hpass.
  - assert (Hblocks : insertionBlocks less n 0 20 20 n l = Some (0, l)).
    { assert (H20 : (20 <=? n) = false) by (apply Nat.leb_gt; lia).
      destruct n; cbn [insertionBlocks]; by rewrite H20. }
    rewrite Hblocks. cbn [mbind option_bind]. rewrite Hsort.
    cbn [mbind option_bind]. apply Hpass.
Qed.

End InsertionFacts.

Section SinkFacts.
Context {A : Type}.
Variable less : A → A → bool.

Lemma reverse_sorted_from (run l : list A) :
  reverse (foldl (insertion.insert less) run l)
  = foldl (λ acc x, insertion.sink less x acc) (reverse run) l.
Proof.
  revert run. induction l as [|x l IH]; intros run; simpl; [done|].
  rewrite IH. unfold insertion.insert. by rewrite reverse_involutive.
Qed.

Lemma reverse_sorted (l : list A) :
  reverse (insertion.sorted less l)
  = foldl (λ acc x, insertion.sink less x acc) [] l.
Proof. apply (reverse_sorted_from []). Qed.

Lemma sink_pass (x : A) (passed rest : list A) :
  Forall (λ y, less x y = true) passed →
  insertion.sink less x (passed ++ rest) = passed ++ insertion.sink less x rest.
Proof.
  induction 1 as [|y passed Hy _ IH]; simpl; [done|]. by rewrite Hy, IH.
Qed.

Lemma sink_Permutation (x : A) (l : list A) :
  insertion.sink less x l ≡ₚ x :: l.
Proof.
  induction l as [|y l IH]; simpl; [done|].
  destruct (less x y); [|done]. rewrite IH. apply Permutation_swap.
Qed.

Lemma sinks_Permutation (l : list A) :
  foldl (λ acc x, insertion.sink less x acc) [] l ≡ₚ l.
Proof.
  induction l as [|x l IH] using rev_ind; [done|].
  rewrite foldl_snoc, sink_Permutation, IH. by rewrite Permutation_app_comm.
Qed.

(** Insertion keeps the elements. *)
Lemma sorted_Permutation (l : list A) : insertion.sorted less l ≡ₚ l.
Proof.
  rewrite <- (reverse_Permutation (insertion.sorted less l)), reverse_sorted.
  apply sinks_Permutation.
Qed.

End SinkFacts.

Lemma StronglySorted_reverse {A : Type} (R : relation A) (l : list A) :
  StronglySorted R l → StronglySorted (flip R) (reverse l).
Proof.
  induction 1 as [|x l Hl IH Hx]; [constructor|].
  rewrite reverse_cons. apply StronglySorted_app_2.
  - intros y z Hy Hz. apply list_elem_of_singleton in Hz as ->.
    rewrite elem_of_reverse in Hy. rewrite Forall_forall in Hx.
    unfold flip. by apply Hx.
  - done.
  - repeat constructor.
Qed.

(** ** What [sortPosts] does to at most twenty posts *)
Section SmallSortFacts.
Context {Tag : Type}.
Abbreviation Post := (Post.t Tag).

Lemma lessPost_last_first (x y : Post) :
  Post.Order x = orderLast → Post.Order y ≠ orderLast → lessPost x y = false.
Proof.
  intros Hx Hy. unfold lessPost. rewrite Hx.
  apply String.eqb_neq in Hy. rewrite Hy. reflexivity.
Qed.

Lemma lessPost_default_top (x y : Post) :
  Post.Order x = orderDefault → Post.Order y = orderTop → lessPost x y = false.
Proof. intros Hx Hy. unfold lessPost. by rewrite Hx, Hy. Qed.

(** A post with order default sinking into a run of default posts that
    stands behind top posts. *)
Lemma sink_default (x : Post) (defaults tops : list Post) :
  Post.Order x = orderDefault →
  Forall (λ y, Post.Order y = orderDefault) defaults →
  Forall (λ y, Post.Order y = orderTop) tops →
  insertion.sink lessPost x (defaults ++ tops)
  = insertion.sink createdAfter x defaults ++ tops.
Proof.
  intros Hx Hd Ht. induction Hd as [|y defaults Hy _ IH]; simpl.
  - destruct Ht as [|y tops Hy _]; simpl; [done|].
    by rewrite lessPost_default_top.
  - rewrite lessPost_default by done. unfold createdAfter at 1.
    destruct (time.After _ _); [by rewrite IH|done].
Qed.

Lemma ofOrder_snoc (o : string) (posts : list Post) (x : Post) :
  ofOrder o (posts ++ [x])
  = ofOrder o posts ++ (if decide (Post.Order x = o) then [x] else []).
Proof.
  unfold ofOrder. by rewrite filter_app.
Qed.

Lemma ofOrder_all (o : string) (posts : list Post) :
  Forall (λ y, Post.Order y = o) (ofOrder o posts).
Proof.
  apply Forall_forall. intros y Hy. unfold ofOrder in Hy.
  by apply list_elem_of_filter in Hy as [? _].
Qed.

(** The run the insertion loop builds from validated posts, nearest first:
    the posts with order last as they came, the default posts as they sink
    by creation time, the posts with order top as they came. *)
Lemma sinks_by_class (posts : list Post) :
  Forall (λ post, validOrder (Post.Order post)) posts →
  foldl (λ acc x, insertion.sink lessPost x acc) [] posts
  = ofOrder orderLast posts
    ++ foldl (λ acc x, insertion.sink createdAfter x acc) []
         (ofOrder orderDefault posts)
    ++ ofOrder orderTop posts.
Proof.
  induction posts as [|x posts IH] using rev_ind; intros Hvalid; [done|].
  apply Forall_app in Hvalid as [Hposts Hx]. rewrite Forall_singleton in Hx.
  rewrite foldl_snoc, IH by done. rewrite !ofOrder_snoc.
  set (L := ofOrder orderLast posts).
  set (D := ofOrder orderDefault posts).
  set (T := ofOrder orderTop posts).
  set (RD := foldl (λ acc x, insertion.sink createdAfter x acc) [] D).
  assert (HL : Forall (λ y, Post.Order y = orderLast) L) by apply ofOrder_all.
  assert (HT : Forall (λ y, Post.Order y = orderTop) T) by apply ofOrder_all.
  assert (HRD : Forall (λ y, Post.Order y = orderDefault) RD).
  { unfold RD. rewrite sinks_Permutation. apply ofOrder_all. }
  simpl in Hx. unfold validOrder in Hx. destruct Hx as [Hx|[Hx|Hx]].
  - (* top: sinks past every post *)
    rewrite !decide_False, decide_True by (rewrite Hx; done).
    rewrite !app_nil_r. fold RD.
    replace (L ++ RD ++ T) with ((L ++ RD ++ T) ++ []) at 1
      by apply app_nil_r.
    rewrite sink_pass; [simpl; by rewrite <- !app_assoc|].
    apply Forall_forall. intros y _. by apply lessPost_top_first.
  - (* last: sinks past the posts with order last *)
    rewrite decide_True, !decide_False by (rewrite Hx; done).
    rewrite !app_nil_r. fold RD.
    rewrite sink_pass.
    2:{ eapply Forall_impl; [exact HL|]. intros y Hy.
        by apply lessPost_last_second. }
    rewrite <- app_assoc. f_equal.
    destruct (RD ++ T) as [|y rest] eqn:Hrest; [done|]. simpl.
    rewrite lessPost_last_first; [done..|].
    assert (Hy : y ∈ RD ++ T) by (rewrite Hrest; by left).
    apply elem_of_app in Hy as [Hy|Hy].
    + rewrite Forall_forall in HRD. by rewrite (HRD y Hy).
    + rewrite Forall_forall in HT. by rewrite (HT y Hy).
  - (* default: sinks past the posts with order last, stops at a top *)
    rewrite decide_False, decide_True, decide_False by (rewrite Hx; done).
    rewrite foldl_snoc, !app_nil_r. fold RD.
    rewrite sink_pass.
    2:{ eapply Forall_impl; [exact HL|]. intros y Hy.
        by apply lessPost_last_second. }
    by rewrite sink_default.
Qed.

Lemma sorted_by_class (posts : list Post) :
  Forall (λ post, validOrder (Post.Order post)) posts →
  insertion.sorted lessPost posts
  = reverse (ofOrder orderTop posts)
    ++ insertion.sorted createdAfter (ofOrder orderDefault posts)
    ++ reverse (ofOrder orderLast posts).
Proof.
  intros Hvalid.
  rewrite <- (reverse_involutive (insertion.sorted lessPost posts)).
  rewrite reverse_sorted, sinks_by_class by done.
  rewrite !reverse_app, <- reverse_sorted, reverse_involutive.
  by rewrite <- app_assoc.
Qed.

(** Sinking by creation time keeps a run in ascending order of creation,
    nearest first. *)
Lemma sink_created_sorted (x : Post) (run : list Post) :
  StronglySorted (λ a b, (Post.Created a ≤ Post.Created b)%Z) run →
  StronglySorted (λ a b, (Post.Created a ≤ Post.Created b)%Z)
    (insertion.sink createdAfter x run).
Proof.
  induction 1 as [|y run Hrun IH Hy]; simpl; [repeat constructor|].
  unfold createdAfter at 1, time.After.
  destruct (Z.ltb_spec (Post.Created y) (Post.Created x)) as [Hlt|Hge].
  - constructor; [done|]. rewrite sink_Permutation. constructor; [lia|done].
  - constructor; [by constructor|]. constructor; [done|].
    eapply Forall_impl; [exact Hy|]. simpl. intros z Hz. lia.
Qed.

Lemma sink_created_filter (t : time.Time) (x : Post) (run : list Post) :
  filter (λ post, Post.Created post = t) (insertion.sink createdAfter x run)
  = filter (λ post, Post.Created post = t) (x :: run).
Proof.
  induction run as [|y run IH]; simpl; [done|].
  unfold createdAfter at 1, time.After.
  destruct (Z.ltb_spec (Post.Created y) (Post.Created x)) as [Hlt|Hge]; [|done].
  rewrite filter_cons, IH, !filter_cons.
  destruct (decide (Post.Created y = t)), (decide (Post.Created x = t));
    try done; lia.
Qed.

Lemma sinks_created_filter (t : time.Time) (posts : list Post) :
  filter (λ post, Post.Created post = t)
    (foldl (λ acc x, insertion.sink createdAfter x acc) [] posts)
  = reverse (filter (λ post, Post.Created post = t) posts).
Proof.
  induction posts as [|x posts IH] using rev_ind; [done|].
  rewrite foldl_snoc, sink_created_filter, filter_cons, IH.
  rewrite filter_app, reverse_app, filter_cons, filter_nil.
  by destruct (decide (Post.Created x = t)).
Qed.

(** The default posts after the insertion loop: the same posts, the later
    created first, and those created at the same instant in the order they
    came. *)
Lemma sorted_by_created (posts : list Post) :
  insertion.sorted createdAfter posts ≡ₚ posts
  ∧ StronglySorted (λ a b, (Post.Created b ≤ Post.Created a)%Z)
      (insertion.sorted createdAfter posts)
  ∧ ∀ t, filter (λ post, Post.Created post = t)
           (insertion.sorted createdAfter posts)
         = filter (λ post, Post.Created post = t) posts.
Proof.
  split; [apply sorted_Permutation|]. split.
  - rewrite <- (reverse_involutive (insertion.sorted createdAfter posts)).
    apply (StronglySorted_reverse (λ a b, (Post.Created a ≤ Post.Created b)%Z)).
    rewrite reverse_sorted.
    induction posts as [|x posts IH] using rev_ind; [constructor|].
    rewrite foldl_snoc. by apply sink_created_sorted.
  - intros t.
    rewrite <- (reverse_involutive (insertion.sorted createdAfter posts)).
    rewrite filter_reverse, reverse_sorted, sinks_created_filter.
    apply reverse_involutive.
Qed.

(** On at most twenty validated posts the sort is the insertion loop, class
    by class. *)
Lemma sortPosts_by_insertion (posts : list Post) :
  length posts ≤ 20 →
  Forall (λ post, validOrder (Post.Order post)) posts →
  sortPosts posts
  = Some (reverse (ofOrder orderTop posts)
          ++ insertion.sorted createdAfter (ofOrder orderDefault posts)
          ++ reverse (ofOrder orderLast posts)).
Proof.
  intros Hlen Hvalid. unfold sortPosts. rewrite SliceStable_small by done.
  by rewrite sorted_by_class.
Qed.

(** X2. On at most twenty validated posts [sortPosts] returns the posts
    with order top in the reverse of the order they came in, then the
    default posts, the later created first and those created at the same
    instant in the order they came in, then the posts with order last in
    the reverse of the order they came in. *)
Theorem sortPosts_small (posts : list Post) :
  length posts ≤ 20 →
  Forall (λ post, validOrder (Post.Order post)) posts →
  ∃ defaults,
    sortPosts posts
    = Some (reverse (ofOrder orderTop posts) ++ defaults
            ++ reverse (ofOrder orderLast posts))
    ∧ defaults ≡ₚ ofOrder orderDefault posts
    ∧ StronglySorted (λ a b, (Post.Created b ≤ Post.Created a)%Z) defaults
    ∧ ∀ t, filter (λ post, Post.Created post = t) defaults
           = filter (λ post, Post.Created post = t)
               (ofOrder orderDefault posts).
Proof.
  intros Hlen Hvalid.
  exists (insertion.sorted createdAfter (ofOrder orderDefault posts)).
  split; [by apply sortPosts_by_insertion|apply sorted_by_created].
Qed.

Lemma created_unique (posts : list Post) (x y : Post) :
  NoDup (Post.Created <$> posts) → x ∈ posts → y ∈ posts →
  Post.Created x = Post.Created y → x = y.
Proof.
  induction posts as [|p posts IH]; intros Hnd Hx Hy Heq.
  - by apply elem_of_nil in Hx.
  - rewrite fmap_cons in Hnd. apply NoDup_cons in Hnd as [Hp Hnd].
    apply elem_of_cons in Hx as [->|Hx], Hy as [->|Hy]; try done.
    + exfalso. apply Hp. rewrite Heq. by apply list_elem_of_fmap_2.
    + exfalso. apply Hp. rewrite <- Heq. by apply list_elem_of_fmap_2.
    + by apply IH.
Qed.

(** X3. When at most twenty validated posts hold at most one post with
    order top, at most one with order last, and default posts created at
    pairwise different instants, the result of [sortPosts] does not depend
    on the order in which the posts come in. *)
Theorem sortPosts_any_order (posts posts' : list Post) :
  posts' ≡ₚ posts →
  length posts ≤ 20 →
  Forall (λ post, validOrder (Post.Order post)) posts →
  length (ofOrder orderTop posts) ≤ 1 →
  length (ofOrder orderLast posts) ≤ 1 →
  NoDup (Post.Created <$> ofOrder orderDefault posts) →
  sortPosts posts' = sortPosts posts.
Proof.
  intros Hperm Hlen Hvalid Htop Hlast Hnd.
  assert (Hsame : ∀ o l l', l' ≡ₚ l → length (ofOrder (Tag:=Tag) o l) ≤ 1 →
                            ofOrder o l' = ofOrder o l).
  { intros o l l' Hp Hl. unfold ofOrder in *.
    pose proof (filter_Permutation (λ post : Post, Post.Order post = o) _ _ Hp)
      as Hf.
    destruct (filter _ l) as [|a [|b rest]]; [|..].
    - symmetry in Hf. by apply Permutation_nil in Hf.
    - by apply Permutation_singleton_r in Hf.
    - simpl in Hl. lia. }
  rewrite (sortPosts_by_insertion posts Hlen Hvalid).
  rewrite (sortPosts_by_insertion posts') by (by rewrite Hperm).
  destruct (sorted_by_created (ofOrder orderDefault posts))
    as (Hds & Hsorted & _).
  destruct (sorted_by_created (ofOrder orderDefault posts'))
    as (Hds' & Hsorted' & _).
  set (ds := insertion.sorted createdAfter (ofOrder orderDefault posts)) in *.
  set (ds' := insertion.sorted createdAfter (ofOrder orderDefault posts')) in *.
  rewrite (Hsame orderTop posts posts'), (Hsame orderLast posts posts') by done.
  do 3 f_equal.
  assert (Hdd : ds' ≡ₚ ds).
  { rewrite Hds, Hds'. unfold ofOrder. by apply filter_Permutation. }
  assert (Htrans : Transitive (λ a b : Post, (Post.Created b ≤ Post.Created a)%Z)).
  { intros a b c ? ?. lia. }
  apply (Sorted_unique_strong (λ a b : Post, (Post.Created b ≤ Post.Created a)%Z));
    [|by apply StronglySorted_Sorted..|done].
  intros x y Hx Hy Hxy Hyx.
  apply (created_unique (ofOrder orderDefault posts)); [done| | |lia].
  - by rewrite <- Hds, <- Hdd.
  - by rewrite <- Hds.
Qed.

(** X1. [sortPosts] returns on every slice, and what it returns holds the
    same posts: the sort never reads or swaps outside the slice and each of
    its loops ends. *)
Theorem sortPosts_returns (posts : list Post) :
  ∃ sorted, sortPosts posts = Some sorted ∧ sorted ≡ₚ posts.
Proof. unfold sortPosts. apply SliceStable_returns. Qed.

End SmallSortFacts.

(** ** More about [checkPostsDup], [loadPost] and the loading loop *)
Section LoaderMoreFacts.
Context {Tag : Type}.
Variable w : extern.World.
Variable pth : path.Path.
Abbreviation Post := (Post.t Tag).

Lemma count_elem (posts : list Post) (post : Post) :
  post ∈ posts → 1 ≤ count posts (Post.Slug post).
Proof.
  induction posts as [|p posts IH]; intros Hin.
  - by apply elem_of_nil in Hin.
  - simpl. apply elem_of_cons in Hin as [->|Hin].
    + rewrite String.eqb_refl. lia.
    + specialize (IH Hin). lia.
Qed.

Lemma count_absent (posts : list Post) (slug : string) :
  slug ∉ Post.Slug <$> posts → count posts slug = 0.
Proof.
  induction posts as [|p posts IH]; intros Hnot; [done|].
  rewrite fmap_cons, not_elem_of_cons in Hnot. destruct Hnot as [Hne Hnot].
  simpl.
  destruct (String.eqb_spec (Post.Slug p) slug); [congruence|].
  by rewrite IH.
Qed.

Lemma NoDup_count (posts : list Post) (slug : string) :
  NoDup (Post.Slug <$> posts) → count posts slug ≤ 1.
Proof.
  induction posts as [|p posts IH]; intros Hnd; [simpl; lia|].
  rewrite fmap_cons in Hnd. apply NoDup_cons in Hnd as [Hp Hnd]. simpl.
  destruct (String.eqb_spec (Post.Slug p) slug) as [<-|_].
  - rewrite count_absent by done. lia.
  - specialize (IH Hnd). lia.
Qed.

Lemma checkEach_first (posts rest : list Post) (e : helper.error) :
  checkEach posts rest = Some e →
  ∃ i post,
    rest !! i = Some post
    ∧ e = helper.OtherError ("存在同名的文章：" +:+ Post.Slug post)
    ∧ 2 ≤ count posts (Post.Slug post)
    ∧ ∀ j earlier, j < i → rest !! j = Some earlier →
        count posts (Post.Slug earlier) ≤ 1.
Proof.
  induction rest as [|p rest IH]; simpl; intros H; [done|].
  destruct (Nat.ltb_spec 1 (count posts (Post.Slug p))) as [Hdup|Hone].
  - simplify_eq. exists 0, p. repeat split; [lia|]. intros; lia.
  - destruct (IH H) as (i & q & Hq & -> & Hcount & Hbefore).
    exists (S i), q. repeat split; [done..|].
    intros [|j] earlier Hj Hearlier; simpl in Hearlier.
    + by simplify_eq.
    + apply (Hbefore j); [lia|done].
Qed.

(** X4. [checkPostsDup] returns nil exactly when the slugs are pairwise
    different; otherwise its error names the slug of the first post of the
    slice whose slug occurs more than once. *)
Theorem checkPostsDup_exact (posts : list Post) :
  (checkPostsDup posts = None ↔ NoDup (Post.Slug <$> posts))
  ∧ ∀ e, checkPostsDup posts = Some e →
      ∃ i post,
        posts !! i = Some post
        ∧ e = helper.OtherError ("存在同名的文章：" +:+ Post.Slug post)
        ∧ 2 ≤ count posts (Post.Slug post)
        ∧ ∀ j earlier, j < i → posts !! j = Some earlier →
            count posts (Post.Slug earlier) = 1.
Proof.
  split.
  - split; [apply checkPostsDup_None|]. intros Hnd. unfold checkPostsDup.
    destruct (checkEach posts posts) as [e|] eqn:Hcheck; [|done].
    destruct (checkEach_first _ _ _ Hcheck) as (i & p & _ & _ & Hdup & _).
    pose proof (NoDup_count posts (Post.Slug p) Hnd). lia.
  - intros e Hcheck.
    destruct (checkEach_first _ _ _ Hcheck) as (i & p & Hp & -> & Hdup & Hbefore).
    exists i, p. repeat split; [done..|]. intros j earlier Hj Hearlier.
    pose proof (Hbefore j earlier Hj Hearlier).
    pose proof (count_elem posts earlier
                  (list_elem_of_lookup_2 _ _ _ Hearlier)). lia.
Qed.

(** X5. A post [loadPost] returns that is not a draft is built from the
    metadata and the content file in full: the slug is the one asked for,
    the content is the non-empty file, the two instants are the parsed
    [created] and [modified], [Permalink] is the address of the slug and
    [HTMLTitle] is cleared, title and tags are non-empty, an empty order is
    [default], empty keywords are the tags, an empty template is the
    default one, and the two search copies are the lower-cased title and
    content, whatever the metadata said under those keys. *)
Theorem loadPost_builds (slug : string) (post : Post) :
  loadPost w pth slug = inr post → Post.Draft post = false →
  ∃ doc data created modified,
    extern.LoadYAMLPost w (path.PostMetaPath pth slug) = inr doc
    ∧ extern.ReadFile w (path.PostContentPath pth slug) = inr data
    ∧ extern.ParseDate w (PostMeta.created doc) = inr created
    ∧ extern.ParseDate w (PostMeta.modified doc) = inr modified
    ∧ data ≠ "" ∧ PostMeta.title doc ≠ "" ∧ PostMeta.tags doc ≠ ""
    ∧ post =
      {| Post.Slug := slug;
         Post.Title := PostMeta.title doc;
         Post.HTMLTitle := "";
         Post.Created := created;
         Post.Modified := modified;
         Post.Tags := [];
         Post.Summary := PostMeta.summary doc;
         Post.Content := data;
         Post.TagsString := PostMeta.tags doc;
         Post.Permalink := extern.PostURL w slug;
         Post.Outdated := "";
         Post.Order := if String.eqb (PostMeta.order doc) "" then orderDefault
                       else PostMeta.order doc;
         Post.Draft := false;
         Post.Author := PostMeta.author doc;
         Post.License := PostMeta.license doc;
         Post.Template := if String.eqb (PostMeta.template doc) ""
                          then extern.PagePost w else PostMeta.template doc;
         Post.Keywords := if String.eqb (PostMeta.keywords doc) ""
                          then PostMeta.tags doc else PostMeta.keywords doc;
         Post.SearchTitle := extern.ToLower w (PostMeta.title doc);
         Post.SearchContent := extern.ToLower w data |}.
Proof.
  unfold loadPost. intros H Hd.
  destruct (extern.LoadYAMLPost w _) as [e|doc] eqn:Hload; [done|].
  cbn in H. destruct (PostMeta.draft doc) eqn:Hdraft.
  { simplify_eq. cbn in Hd. congruence. }
  destruct (extern.ReadFile w _) as [msg|data] eqn:Hread; [done|].
  rewrite length_zero in H.
  destruct (String.eqb_spec data "") as [|Hdata]; [done|]. cbn in H.
  destruct (extern.ParseDate w (PostMeta.created doc)) as [|created] eqn:Hc;
    [done|]. cbn in H.
  destruct (extern.ParseDate w (PostMeta.modified doc)) as [|modified] eqn:Hm;
    [done|]. cbn in H.
  rewrite !length_zero in H.
  destruct (String.eqb_spec (PostMeta.title doc) "") as [|Htitle]; [done|].
  destruct (String.eqb_spec (PostMeta.tags doc) "") as [|Htags]; [done|].
  exists doc, data, created, modified. repeat (split; [done|]).
  revert H.
  destruct (String.eqb (PostMeta.keywords doc) ""); cbn;
    destruct (String.eqb (PostMeta.template doc) ""); cbn;
    rewrite ?length_zero;
    destruct (String.eqb (PostMeta.order doc) ""); cbn;
    try (intros H; injection H as <-; built_post Hdraft);
    match goal with
    | |- context [negb ?a && negb ?b && negb ?c] =>
        destruct (negb a && negb b && negb c)
    end; try done; intros H; injection H as <-; built_post Hdraft.
Qed.

(** X6. Whatever makes [loadPost] fail, its error is either the error of
    loading the metadata file, handed on as it is, or a field error on the
    metadata file of the slug, for one of the fields [path], [content],
    [created], [modified], [title], [tags] and [order]. *)
Theorem loadPost_errors (slug : string) (e : helper.error) :
  loadPost (Tag:=Tag) w pth slug = inl e →
  extern.LoadYAMLPost w (path.PostMetaPath pth slug) = inl e
  ∨ ∃ msg field,
      e = helper.IsFieldError
            (helper.mkFieldError (path.PostMetaPath pth slug) msg field)
      ∧ field ∈ ["path"; "content"; "created"; "modified"; "title"; "tags";
                 "order"].
Proof.
  unfold loadPost, fieldError.
  destruct (extern.LoadYAMLPost w _) as [e'|doc]; [intros; left; congruence|].
  cbn. destruct (PostMeta.draft doc); [done|]. intros H. right. revert H.
  destruct (extern.ReadFile w _) as [msg|data].
  { intros; simplify_eq. eexists _, _. split; [done|]. (apply list_elem_of_In; simpl; tauto). }
  destruct (String.length data =? 0).
  { intros; simplify_eq. eexists _, _. split; [done|]. (apply list_elem_of_In; simpl; tauto). }
  cbn. destruct (extern.ParseDate w (PostMeta.created doc)).
  { intros; simplify_eq. eexists _, _. split; [done|]. (apply list_elem_of_In; simpl; tauto). }
  cbn. destruct (extern.ParseDate w (PostMeta.modified doc)).
  { intros; simplify_eq. eexists _, _. split; [done|]. (apply list_elem_of_In; simpl; tauto). }
  cbn. destruct (String.length (PostMeta.title doc) =? 0).
  { intros; simplify_eq. eexists _, _. split; [done|]. (apply list_elem_of_In; simpl; tauto). }
  destruct (String.length (PostMeta.tags doc) =? 0).
  { intros; simplify_eq. eexists _, _. split; [done|]. (apply list_elem_of_In; simpl; tauto). }
  destruct (String.length (PostMeta.keywords doc) =? 0); cbn;
    destruct (String.length (PostMeta.template doc) =? 0); cbn;
    destruct (String.length (PostMeta.order doc) =? 0); cbn; try done;
    match goal with
    | |- context [negb ?a && negb ?b && negb ?c] =>
        destruct (negb a && negb b && negb c)
    end; try done;
    intros; simplify_eq; eexists _, _; (split; [done|]); (apply list_elem_of_In; simpl; tauto).
Qed.

(** X7. The first slug that fails to load ends the ingestion: when every
    slug before it loads, the loading loop returns its error whatever
    follows it and whatever was collected, and [loadPosts] returns that
    error. *)
Theorem first_error_ends_loading (before after : list string) (slug : string)
    (e : helper.error) :
  Forall (λ s, ∃ post : Post, loadPost w pth s = inr post) before →
  loadPost (Tag:=Tag) w pth slug = inl e →
  (∀ posts : list Post,
     loadEach w pth (before ++ slug :: after) posts = inl e)
  ∧ (Walk w pth (extern.WalkVisits w (path.PostsDir pth)) []
     = inr (before ++ slug :: after) →
     loadPosts (Tag:=Tag) w pth = Some (inl e)).
Proof.
  intros Hbefore Hslug.
  assert (Hloop : ∀ posts : list Post,
            loadEach w pth (before ++ slug :: after) posts = inl e).
  { induction Hbefore as [|s before [post Hs] _ IH]; intros posts; simpl.
    - by rewrite Hslug.
    - rewrite Hs. apply IH. }
  split; [done|]. intros Hwalk. unfold loadPosts. by rewrite Hwalk, Hloop.
Qed.

Lemma loadPost_draft_flag (slug : string) (doc : PostMeta.t) (post : Post) :
  extern.LoadYAMLPost w (path.PostMetaPath pth slug) = inr doc →
  loadPost w pth slug = inr post →
  Post.Draft post = PostMeta.draft doc.
Proof.
  intros Hload. unfold loadPost. rewrite Hload. cbn.
  destruct (PostMeta.draft doc) eqn:Hdraft.
  { intros H. injection H as <-. cbn. done. }
  destruct (extern.ReadFile w _) as [msg|data]; [done|].
  destruct (String.length data =? 0); [done|]. cbn.
  destruct (extern.ParseDate w (PostMeta.created doc)); [done|]. cbn.
  destruct (extern.ParseDate w (PostMeta.modified doc)); [done|]. cbn.
  destruct (String.length (PostMeta.title doc) =? 0); [done|].
  destruct (String.length (PostMeta.tags doc) =? 0); [done|]. cbn.
  destruct (String.length (PostMeta.keywords doc) =? 0); cbn;
    destruct (String.length (PostMeta.template doc) =? 0); cbn;
    destruct (String.length (PostMeta.order doc) =? 0); cbn;
    try (intros H; injection H as <-; by cbn);
    match goal with
    | |- context [negb ?a && negb ?b && negb ?c] =>
        destruct (negb a && negb b && negb c)
    end; try done; intros H; injection H as <-; by cbn.
Qed.

Lemma loadPost_isPublished (slug : string) (post : Post) :
  loadPost w pth slug = inr post →
  isPublished w pth slug = negb (Post.Draft post).
Proof.
  intros Hpost. unfold isPublished.
  destruct (extern.LoadYAMLPost w _) as [e|doc] eqn:Hload.
  - unfold loadPost in Hpost. by rewrite Hload in Hpost.
  - by rewrite (loadPost_draft_flag slug doc post).
Qed.

Lemma loadEach_slugs (slugs : list string) (acc posts : list Post) :
  loadEach w pth slugs acc = inr posts →
  Post.Slug <$> posts
  = (Post.Slug <$> acc) ++ filter (λ s, isPublished w pth s = true) slugs.
Proof.
  revert acc. induction slugs as [|slug slugs IH]; intros acc H; simpl in H.
  - simplify_eq. by rewrite app_nil_r.
  - destruct (loadPost w pth slug) as [e|post] eqn:Hpost; [done|].
    rewrite (IH _ H), filter_cons, (loadPost_isPublished slug post Hpost).
    destruct (Post.Draft post) eqn:Hdraft; simpl.
    + done.
    + rewrite fmap_app, <- app_assoc. simpl.
      destruct (loadPost_published w pth slug post Hpost Hdraft) as (-> & _).
      done.
Qed.

(** X10. The collection [loadPosts] returns holds exactly the slugs the
    walk found whose metadata does not mark a draft: its slugs are a
    rearrangement of those slugs, none is lost and none is added. *)
Theorem loadPosts_slugs (slugs : list string) (posts : list Post) :
  Walk w pth (extern.WalkVisits w (path.PostsDir pth)) [] = inr slugs →
  loadPosts w pth = Some (inr posts) →
  Post.Slug <$> posts ≡ₚ filter (λ s, isPublished w pth s = true) slugs
  ∧ ∀ slug, slug ∈ Post.Slug <$> posts
            ↔ slug ∈ slugs ∧ isPublished w pth slug = true.
Proof.
  intros Hwalk Hposts.
  destruct (loadPosts_inr w pth posts Hposts)
    as (slugs' & loaded & Hwalk' & Hload & _ & _ & Hperm).
  rewrite Hwalk in Hwalk'. simplify_eq.
  pose proof (loadEach_slugs _ _ _ Hload) as Hslugs. simpl in Hslugs.
  assert (Hp : Post.Slug <$> posts
               ≡ₚ filter (λ s, isPublished w pth s = true) slugs').
  { by rewrite Hperm, Hslugs. }
  split; [done|]. intros slug. rewrite Hp, list_elem_of_filter. tauto.
Qed.

End LoaderMoreFacts.

(** ** Trimming and the slug of a directory *)

Local Arguments String.append !_ _ / : simpl nomatch.

Lemma substring_whole (s : string) : String.substring 0 (String.length s) s = s.
Proof. induction s as [|c s IH]; simpl; [done|]. by rewrite IH. Qed.

Lemma TrimPrefix_app (prefix rest : string) :
  strings.TrimPrefix (prefix +:+ rest) prefix = rest.
Proof.
  unfold strings.TrimPrefix.
  assert (Hp : String.prefix prefix (prefix +:+ rest) = true).
  { induction prefix as [|c prefix IH]; simpl; [by destruct rest|].
    destruct (ascii_dec c c); [done|congruence]. }
  rewrite Hp. clear Hp.
  induction prefix as [|c prefix IH]; simpl.
  - rewrite Nat.sub_0_r. apply substring_whole.
  - exact IH.
Qed.

Lemma TrimRightSlash_no_slash_end (s rest : string) :
  strings.TrimRightSlash s ≠ rest +:+ "/".
Proof.
  revert rest. induction s as [|c s IH]; intros rest; simpl.
  - by destruct rest.
  - destruct (strings.TrimRightSlash s) as [|c' t] eqn:Ht.
    + destruct (Ascii.eqb_spec c "/"%char) as [->|Hc].
      * by destruct rest.
      * destruct rest as [|c'' [|? ?]]; simpl; congruence.
    + destruct rest as [|c'' rest]; simpl; [congruence|].
      intros H. injection H as -> H. by apply (IH rest).
Qed.

Lemma TrimLeftSlash_no_slash_start (s rest : string) :
  strings.TrimLeftSlash s ≠ "/" +:+ rest.
Proof.
  induction s as [|c s IH]; simpl; [done|].
  destruct c as [[] [] [] [] [] [] [] []]; try done; simpl; congruence.
Qed.

Lemma TrimRightSlash_keeps_start (s rest : string) :
  (∀ rest', s ≠ "/" +:+ rest') → strings.TrimRightSlash s ≠ "/" +:+ rest.
Proof.
  destruct s as [|c s]; simpl; [done|]. intros Hs.
  assert (c ≠ "/"%char) by (intros ->; by apply (Hs s)).
  destruct (strings.TrimRightSlash s).
  - destruct (Ascii.eqb_spec c "/"%char); [done|]. simpl. congruence.
  - simpl. congruence.
Qed.

(** What [strings.Trim(s, "/")] returns neither starts nor ends with a
    slash. *)
Lemma TrimSlash_trimmed (s rest : string) :
  strings.TrimSlash s ≠ "/" +:+ rest ∧ strings.TrimSlash s ≠ rest +:+ "/".
Proof.
  unfold strings.TrimSlash. split.
  - apply TrimRightSlash_keeps_start. intros rest'.
    apply TrimLeftSlash_no_slash_start.
  - apply TrimRightSlash_no_slash_end.
Qed.

Lemma TrimRightSlash_id (s : string) :
  (∀ rest, s ≠ rest +:+ "/") → strings.TrimRightSlash s = s.
Proof.
  induction s as [|c s IH]; intros Hs; simpl; [done|].
  rewrite IH.
  - destruct s as [|c' s]; [|done].
    destruct (Ascii.eqb_spec c "/"%char) as [->|]; [|done].
    by destruct (Hs "").
  - intros rest ->. by apply (Hs (String c rest)).
Qed.

Lemma TrimLeftSlash_id (s : string) :
  (∀ rest, s ≠ "/" +:+ rest) → strings.TrimLeftSlash s = s.
Proof.
  destruct s as [|c s]; intros Hs; [done|].
  destruct (Ascii.eqb_spec c "/"%char) as [->|Hc]; [by destruct (Hs s)|].
  simpl. destruct c as [[] [] [] [] [] [] [] []]; done.
Qed.

Lemma TrimSlash_id (s : string) :
  (∀ rest, s ≠ "/" +:+ rest ∧ s ≠ rest +:+ "/") → strings.TrimSlash s = s.
Proof.
  intros Hs. unfold strings.TrimSlash.
  rewrite TrimLeftSlash_id by (intros rest; apply Hs).
  apply TrimRightSlash_id. intros rest. apply Hs.
Qed.

(** ** The walk of [loadPosts] *)
Section WalkFacts.
Context {Tag : Type}.
Variable w : extern.World.
Variable pth : path.Path.

Lemma walk_collects (slugs : list string) (v : extern.Visit) :
  extern.err v = None →
  walk w pth slugs v
  = (None, slugs ++ (if collects w pth v then [slugOfVisit w pth v] else [])).
Proof.
  intros Herr. unfold walk, collects, slugOfVisit. rewrite Herr.
  destruct (extern.IsDir v); simpl; [|by rewrite app_nil_r].
  destruct (extern.FileExists w _ && extern.FileExists w _); [done|].
  by rewrite app_nil_r.
Qed.

Lemma Walk_collects (visits : list extern.Visit) (slugs : list string) :
  Forall (λ v, extern.err v = None) visits →
  Walk w pth visits slugs
  = inr (slugs ++ (slugOfVisit w pth
                     <$> filter (λ v, collects w pth v = true) visits)).
Proof.
  intros Hok. revert slugs.
  induction Hok as [|v visits Hv _ IH]; intros slugs; simpl.
  - by rewrite app_nil_r.
  - rewrite walk_collects by done. rewrite IH, filter_cons.
    destruct (collects w pth v); simpl.
    + by rewrite <- app_assoc.
    + by rewrite app_nil_r.
Qed.

Lemma Walk_stops (before after : list extern.Visit) (v : extern.Visit)
    (e : helper.error) (slugs : list string) :
  Forall (λ v, extern.err v = None) before →
  extern.err v = Some e →
  Walk w pth (before ++ v :: after) slugs = inl e.
Proof.
  intros Hok Hv. revert slugs.
  induction Hok as [|u before Hu _ IH]; intros slugs; simpl.
  - unfold walk. by rewrite Hv.
  - rewrite walk_collects by done. apply IH.
Qed.

Lemma Walk_inr (visits : list extern.Visit) (slugs out : list string) :
  Walk w pth visits slugs = inr out →
  Forall (λ v, extern.err v = None) visits.
Proof.
  revert slugs. induction visits as [|v visits IH]; intros slugs H.
  - constructor.
  - simpl in H. destruct (extern.err v) as [e|] eqn:Hv.
    + unfold walk in H. by rewrite Hv in H.
    + rewrite walk_collects in H by done. constructor; [done|]. by eapply IH.
Qed.

(** X8. The walk collects a slug at exactly the visits of directories whose
    slug has both the content file and the metadata file, in the order of
    the visits; a file, or a directory with only one of the two, gives
    none.  The first visit that comes with an error ends the walk, and
    [loadPosts] returns that error. *)
Theorem Walk_discovers (visits : list extern.Visit) :
  (Forall (λ v, extern.err v = None) visits →
   Walk w pth visits []
   = inr (slugOfVisit w pth <$> filter (λ v, collects w pth v = true) visits))
  ∧ (∀ slugs, Walk w pth visits [] = inr slugs →
       ∀ slug, slug ∈ slugs ↔
         ∃ v, v ∈ visits ∧ extern.IsDir v = true ∧ slug = slugOfVisit w pth v
              ∧ extern.FileExists w (path.PostContentPath pth slug) = true
              ∧ extern.FileExists w (path.PostMetaPath pth slug) = true)
  ∧ (∀ before v after e,
       visits = before ++ v :: after →
       Forall (λ v, extern.err v = None) before →
       extern.err v = Some e →
       Walk w pth visits [] = inl e
       ∧ (extern.WalkVisits w (path.PostsDir pth) = visits →
          loadPosts (Tag:=Tag) w pth = Some (inl e))).
Proof.
  split; [|split].
  - intros Hok. by rewrite Walk_collects.
  - intros slugs Hwalk slug.
    pose proof (Walk_inr _ _ _ Hwalk) as Hok.
    rewrite Walk_collects in Hwalk by done. simpl in Hwalk. simplify_eq.
    rewrite list_elem_of_fmap. split.
    + intros (v & -> & Hv). apply list_elem_of_filter in Hv as [Hc Hv].
      unfold collects in Hc. apply andb_true_iff in Hc as [Hc Hmeta].
      apply andb_true_iff in Hc as [Hdir Hcontent]. by exists v.
    + intros (v & Hv & Hdir & -> & Hcontent & Hmeta). exists v.
      split; [done|]. apply list_elem_of_filter. split; [|done].
      unfold collects. by rewrite Hdir, Hcontent, Hmeta.
  - intros before v after e -> Hok Hv.
    pose proof (Walk_stops before after v e [] Hok Hv) as Hstop.
    split; [done|]. intros Hvisits. unfold loadPosts.
    by rewrite Hvisits, Hstop.
Qed.

(** X9. No slug the walk collects starts or ends with a slash.  A directory
    visited under the posts directory as [dir/name], where [name] itself
    neither starts nor ends with a slash and the path separator is the
    slash, has the slug [name]; the posts directory itself has the empty
    slug. *)
Theorem slug_is_relative_path (visits : list extern.Visit) :
  (∀ slugs slug rest,
     Walk w pth visits [] = inr slugs → slug ∈ slugs →
     slug ≠ "/" +:+ rest ∧ slug ≠ rest +:+ "/")
  ∧ (∀ v name,
       extern.p v = extern.Clean w (path.PostsDir pth) +:+ ("/" +:+ name) →
       extern.ToSlash w ("/" +:+ name) = "/" +:+ name →
       (∀ rest, name ≠ "/" +:+ rest ∧ name ≠ rest +:+ "/") →
       slugOfVisit w pth v = name)
  ∧ (∀ v,
       extern.p v = extern.Clean w (path.PostsDir pth) →
       extern.ToSlash w "" = "" →
       slugOfVisit w pth v = "").
Proof.
  split; [|split].
  - intros slugs slug rest Hwalk Hin.
    pose proof (Walk_inr _ _ _ Hwalk) as Hok.
    rewrite Walk_collects in Hwalk by done. simpl in Hwalk. simplify_eq.
    apply list_elem_of_fmap in Hin as (v & -> & _).
    apply TrimSlash_trimmed.
  - intros v name Hp Hslash Hname. unfold slugOfVisit.
    rewrite Hp, TrimPrefix_app, Hslash.
    change (strings.TrimSlash ("/" +:+ name)) with (strings.TrimSlash name).
    by apply TrimSlash_id.
  - intros v Hp Hslash. unfold slugOfVisit.
    replace (extern.p v) with (extern.Clean w (path.PostsDir pth) +:+ "").
    + by rewrite TrimPrefix_app, Hslash.
    + rewrite Hp. clear. induction (extern.Clean w _) as [|c s IH]; simpl;
        [done|]. by rewrite IH.
Qed.

End WalkFacts.

(** ** The other validators *)

(** X11. Each validator returns nil exactly when the record has what it
    requires: an author a name, an icon an address, and an [Outdated] a type
    that is [created] or [modified], a content and a positive duration.
    The error of [Outdated] is on the first of type, content and duration
    that is wrong, and tells a zero duration from a negative one. *)
Theorem sanitize_accepts :
  (∀ author, sanitizeAuthor author = None ↔ Author.Name author ≠ "")
  ∧ (∀ icon, Icon.sanitize icon = None ↔ Icon.URL icon ≠ "")
  ∧ (∀ o, Outdated.sanitize o = None ↔
       (Outdated.Type_ o = "created" ∨ Outdated.Type_ o = "modified")
       ∧ Outdated.Content o ≠ "" ∧ (0 < Outdated.Duration o)%Z)
  ∧ (∀ o e, Outdated.sanitize o = Some e →
       (e = helper.mkFieldError "" "无效的值" "outdated.type"
        ∧ Outdated.Type_ o ≠ "created" ∧ Outdated.Type_ o ≠ "modified")
       ∨ (e = helper.mkFieldError "" "不能为空" "outdated.content"
          ∧ (Outdated.Type_ o = "created" ∨ Outdated.Type_ o = "modified")
          ∧ Outdated.Content o = "")
       ∨ ((Outdated.Type_ o = "created" ∨ Outdated.Type_ o = "modified")
          ∧ Outdated.Content o ≠ ""
          ∧ ((e = helper.mkFieldError "" "不能为空" "outdated.duration"
              ∧ Outdated.Duration o = 0%Z)
             ∨ (e = helper.mkFieldError "" "不能小于 0" "outdated.duration"
                ∧ (Outdated.Duration o < 0)%Z)))).
Proof.
  split; [|split; [|split]].
  - intros author. unfold sanitizeAuthor. rewrite length_zero.
    destruct (String.eqb_spec (Author.Name author) ""); split; done.
  - intros icon. unfold Icon.sanitize. rewrite length_zero.
    destruct (String.eqb_spec (Icon.URL icon) ""); split; done.
  - intros o. unfold Outdated.sanitize, Outdated.OutdatedTypeCreated,
      Outdated.OutdatedTypeModified. rewrite length_zero.
    destruct (String.eqb_spec (Outdated.Type_ o) "created");
      destruct (String.eqb_spec (Outdated.Type_ o) "modified");
      destruct (String.eqb_spec (Outdated.Content o) "");
      destruct (Z.eqb_spec (Outdated.Duration o) 0);
      destruct (Z.ltb_spec (Outdated.Duration o) 0); simpl;
      split; try done; try tauto; try lia; intros; repeat split; auto; lia.
  - intros o e. unfold Outdated.sanitize, Outdated.OutdatedTypeCreated,
      Outdated.OutdatedTypeModified. rewrite length_zero.
    destruct (String.eqb_spec (Outdated.Type_ o) "created");
      destruct (String.eqb_spec (Outdated.Type_ o) "modified");
      destruct (String.eqb_spec (Outdated.Content o) "");
      destruct (Z.eqb_spec (Outdated.Duration o) 0);
      destruct (Z.ltb_spec (Outdated.Duration o) 0); simpl;
      intros Hsan; simplify_eq; tauto.
Qed.

(** ** Package [boot] *)
Section BootFacts.
Context {DB : Type}.
Variable loadConfig : string → helper.error + boot.Config.
Variable NewDB : string → string → string → boot.Dialect → helper.error + DB.
Variable InitFromXMLFile : string → option helper.error.

(** X12. [initDB] opens the database with the dialect of the driver for
    the drivers [sqlite3], [mysql] and [postgres], spelled so, and for any
    other driver fails with the error naming it, whatever [orm.NewDB]
    would answer.  [Init] returns the configuration and the database
    exactly when the configuration loads, [initDB] succeeds and the logs
    are set up; with a configuration whose driver is not one of the three
    it fails with the error naming the driver. *)
Theorem Init_needs_a_known_driver :
  (∀ cfg,
     (boot.DBDriver cfg = "sqlite3" →
      boot.initDB NewDB cfg
      = NewDB "sqlite3" (boot.DBDSN cfg) (boot.DBPrefix cfg) boot.Sqlite3)
     ∧ (boot.DBDriver cfg = "mysql" →
        boot.initDB NewDB cfg
        = NewDB "mysql" (boot.DBDSN cfg) (boot.DBPrefix cfg) boot.Mysql)
     ∧ (boot.DBDriver cfg = "postgres" →
        boot.initDB NewDB cfg
        = NewDB "postgres" (boot.DBDSN cfg) (boot.DBPrefix cfg) boot.Postgres)
     ∧ (boot.DBDriver cfg ∉ ["sqlite3"; "mysql"; "postgres"] →
        boot.initDB NewDB cfg
        = inl (helper.OtherError
                 ("不能理解的dbDriver值：" +:+ boot.DBDriver cfg))))
  ∧ (∀ cfg db,
       boot.Init loadConfig NewDB InitFromXMLFile = inr (cfg, db) ↔
       loadConfig "./config/app.json" = inr cfg
       ∧ boot.initDB NewDB cfg = inr db
       ∧ InitFromXMLFile "./config/logs.xml" = None)
  ∧ (∀ cfg,
       loadConfig "./config/app.json" = inr cfg →
       boot.DBDriver cfg ∉ ["sqlite3"; "mysql"; "postgres"] →
       boot.Init loadConfig NewDB InitFromXMLFile
       = inl (helper.OtherError
                ("不能理解的dbDriver值：" +:+ boot.DBDriver cfg))).
Proof.
  assert (Hunknown : ∀ cfg,
    boot.DBDriver cfg ∉ ["sqlite3"; "mysql"; "postgres"] →
    boot.initDB NewDB cfg
    = inl (helper.OtherError ("不能理解的dbDriver值：" +:+ boot.DBDriver cfg))).
  { intros cfg Hnot. unfold boot.initDB.
    rewrite !not_elem_of_cons in Hnot. destruct Hnot as (H1 & H2 & H3 & _).
    apply String.eqb_neq in H1, H2, H3. by rewrite H1, H2, H3. }
  split; [|split].
  - intros cfg. unfold boot.initDB. repeat split; try (by intros ->).
    by apply Hunknown.
  - intros cfg db. unfold boot.Init, boot.configPath, boot.logConfigPath.
    destruct (loadConfig _) as [e|cfg']; [split; [done|by intros [? _]]|].
    destruct (boot.initDB NewDB cfg') as [e|db'] eqn:Hdb.
    + split; [done|]. intros (? & ? & _). simplify_eq. congruence.
    + destruct (InitFromXMLFile _) as [e|].
      * split; [done|]. by intros (_ & _ & ?).
      * split.
        -- intros ?. simplify_eq. done.
        -- intros (? & ? & _). simplify_eq. congruence.
  - intros cfg Hcfg Hnot. unfold boot.Init, boot.configPath.
    by rewrite Hcfg, Hunknown.
Qed.

End BootFacts.

(** ** The further facts on the small site *)

Lemma sortPosts_small_witness :
  ∃ defaults,
    sortPosts [site.postA; site.pinned1; site.last1; site.postB;
               site.pinned2; site.last2]
    = Some ([site.pinned2; site.pinned1] ++ defaults
            ++ [site.last2; site.last1])
    ∧ defaults ≡ₚ [site.postA; site.postB]
    ∧ StronglySorted (λ a b, (Post.Created b ≤ Post.Created a)%Z) defaults
    ∧ ∀ t, filter (λ post, Post.Created post = t) defaults
           = filter (λ post, Post.Created post = t) [site.postA; site.postB].
Proof.
  apply (sortPosts_small
           [site.postA; site.pinned1; site.last1; site.postB;
            site.pinned2; site.last2]).
  - simpl. lia.
  - repeat (first [ apply Forall_nil_2
                  | apply Forall_cons_2; [unfold validOrder; simpl; auto|] ]).
Defined.

Lemma sortPosts_any_order_witness :
  sortPosts [site.last1; site.postA; site.pinned1; site.postB]
  = sortPosts [site.postA; site.last1; site.pinned1; site.postB].
Proof.
  apply sortPosts_any_order.
  - apply perm_swap.
  - simpl. lia.
  - repeat (first [ apply Forall_nil_2
                  | apply Forall_cons_2; [unfold validOrder; simpl; auto|] ]).
  - simpl. lia.
  - simpl. lia.
  - simpl. apply NoDup_cons. split; [|apply NoDup_singleton].
    rewrite list_elem_of_singleton. discriminate.
Defined.

Lemma checkPostsDup_exact_witness :
  NoDup (Post.Slug <$> [site.postA; site.postB])
  ∧ ∃ i post,
      [site.postB; site.postA; site.pinned1; site.postA] !! i = Some post
      ∧ helper.OtherError "存在同名的文章：a"
        = helper.OtherError ("存在同名的文章：" +:+ Post.Slug post)
      ∧ 2 ≤ count [site.postB; site.postA; site.pinned1; site.postA]
              (Post.Slug post)
      ∧ ∀ j earlier, j < i →
          [site.postB; site.postA; site.pinned1; site.postA] !! j
          = Some earlier →
          count [site.postB; site.postA; site.pinned1; site.postA]
            (Post.Slug earlier) = 1.
Proof.
  split.
  - apply (proj1 (proj1 (checkPostsDup_exact [site.postA; site.postB]))).
    reflexivity.
  - apply (proj2 (checkPostsDup_exact
                    [site.postB; site.postA; site.pinned1; site.postA])).
    reflexivity.
Defined.

Lemma loadPost_builds_witness :
  ∃ doc data created modified,
    extern.LoadYAMLPost (site.world [] site.noLinks)
      (path.PostMetaPath site.root "a") = inr doc
    ∧ extern.ReadFile (site.world [] site.noLinks)
        (path.PostContentPath site.root "a") = inr data
    ∧ extern.ParseDate (site.world [] site.noLinks) (PostMeta.created doc)
      = inr created
    ∧ extern.ParseDate (site.world [] site.noLinks) (PostMeta.modified doc)
      = inr modified
    ∧ data ≠ "" ∧ PostMeta.title doc ≠ "" ∧ PostMeta.tags doc ≠ ""
    ∧ site.postA =
      {| Post.Slug := "a";
         Post.Title := PostMeta.title doc;
         Post.HTMLTitle := "";
         Post.Created := created;
         Post.Modified := modified;
         Post.Tags := [];
         Post.Summary := PostMeta.summary doc;
         Post.Content := data;
         Post.TagsString := PostMeta.tags doc;
         Post.Permalink := extern.PostURL (site.world [] site.noLinks) "a";
         Post.Outdated := "";
         Post.Order := if String.eqb (PostMeta.order doc) "" then orderDefault
                       else PostMeta.order doc;
         Post.Draft := false;
         Post.Author := PostMeta.author doc;
         Post.License := PostMeta.license doc;
         Post.Template := if String.eqb (PostMeta.template doc) ""
                          then extern.PagePost (site.world [] site.noLinks)
                          else PostMeta.template doc;
         Post.Keywords := if String.eqb (PostMeta.keywords doc) ""
                          then PostMeta.tags doc else PostMeta.keywords doc;
         Post.SearchTitle :=
           extern.ToLower (site.world [] site.noLinks) (PostMeta.title doc);
         Post.SearchContent :=
           extern.ToLower (site.world [] site.noLinks) data |}.
Proof.
  apply (loadPost_builds (site.world [] site.noLinks) site.root "a" site.postA);
    reflexivity.
Defined.

Lemma loadPost_errors_witness :
  extern.LoadYAMLPost (site.world [] site.noLinks)
    (path.PostMetaPath site.root "m")
  = inl (helper.IsFieldError
           (helper.mkFieldError "posts/m/meta.yaml" "无效的值" "order"))
  ∨ ∃ msg field,
      helper.IsFieldError
        (helper.mkFieldError "posts/m/meta.yaml" "无效的值" "order")
      = helper.IsFieldError
          (helper.mkFieldError (path.PostMetaPath site.root "m") msg field)
      ∧ field ∈ ["path"; "content"; "created"; "modified"; "title"; "tags";
                 "order"].
Proof.
  apply (loadPost_errors (Tag:=site.Tag) (site.world [] site.noLinks)
           site.root "m").
  reflexivity.
Defined.

Lemma first_error_ends_loading_witness :
  (∀ posts : list (Post.t site.Tag),
     loadEach (site.world ["a"; "m"; "b"] site.noLinks) site.root
       (["a"] ++ "m" :: ["b"]) posts
     = inl (helper.IsFieldError
              (helper.mkFieldError "posts/m/meta.yaml" "无效的值" "order")))
  ∧ (Walk (site.world ["a"; "m"; "b"] site.noLinks) site.root
       (extern.WalkVisits (site.world ["a"; "m"; "b"] site.noLinks)
          (path.PostsDir site.root)) []
     = inr (["a"] ++ "m" :: ["b"]) →
     loadPosts (Tag:=site.Tag) (site.world ["a"; "m"; "b"] site.noLinks)
       site.root
     = Some (inl (helper.IsFieldError
                    (helper.mkFieldError "posts/m/meta.yaml" "无效的值"
                       "order")))).
Proof.
  apply (first_error_ends_loading (Tag:=site.Tag)
           (site.world ["a"; "m"; "b"] site.noLinks) site.root
           ["a"] ["b"] "m").
  - repeat constructor. exists site.postA. reflexivity.
  - reflexivity.
Defined.

Lemma loadPosts_slugs_witness :
  Post.Slug <$> [site.postB; site.postA]
  ≡ₚ filter (λ s, isPublished (site.world ["a"; "d"; "b"] site.noLinks)
                    site.root s = true) ["a"; "d"; "b"]
  ∧ ∀ slug, slug ∈ Post.Slug <$> [site.postB; site.postA]
            ↔ slug ∈ ["a"; "d"; "b"]
              ∧ isPublished (site.world ["a"; "d"; "b"] site.noLinks)
                  site.root slug = true.
Proof.
  apply (loadPosts_slugs (site.world ["a"; "d"; "b"] site.noLinks) site.root).
  - vm_compute. reflexivity.
  - vm_compute. reflexivity.
Defined.

Lemma Walk_discovers_witness :
  Walk (site.world [] site.noLinks) site.root (site.visitsOf ["a"; "zz"; "d"]) []
  = inr ["a"; "d"]
  ∧ Walk (site.world [] site.noLinks) site.root
      (site.visitsOf ["a"]
       ++ extern.mkVisit "posts/locked" true
            (Some (helper.OtherError "open posts/locked: permission denied"))
       :: site.visitsOf ["b"]) []
    = inl (helper.OtherError "open posts/locked: permission denied").
Proof.
  split.
  - apply (proj1 (Walk_discovers (Tag:=site.Tag) (site.world [] site.noLinks)
                    site.root (site.visitsOf ["a"; "zz"; "d"]))).
    repeat constructor.
  - apply (proj2 (proj2 (Walk_discovers (Tag:=site.Tag)
                           (site.world [] site.noLinks) site.root _))
             (site.visitsOf ["a"])
             (extern.mkVisit "posts/locked" true
                (Some (helper.OtherError "open posts/locked: permission denied")))
             (site.visitsOf ["b"]) _ eq_refl).
    + repeat constructor.
    + reflexivity.
Defined.

Lemma slug_is_relative_path_witness :
  slugOfVisit (site.world [] site.noLinks) site.root
    (extern.mkVisit "posts/2023/first" true None) = "2023/first"
  ∧ slugOfVisit (site.world [] site.noLinks) site.root
      (extern.mkVisit "posts" true None) = "".
Proof.
  split.
  - apply (proj1 (proj2 (slug_is_relative_path (site.world [] site.noLinks)
                           site.root []))); [reflexivity..|].
    intros rest. split; destruct rest as [|c rest]; try discriminate.
    simpl. intros H. injection H as _ H.
    repeat (destruct rest as [|? rest]; [discriminate|];
            simpl in H; injection H as _ H).
    destruct rest; discriminate.
  - apply (proj2 (proj2 (slug_is_relative_path (site.world [] site.noLinks)
                           site.root []))); reflexivity.
Defined.

Lemma sanitize_accepts_witness :
  Outdated.sanitize (Outdated.mk "created" 86400000000000 "This post is old")
  = None
  ∧ (Outdated.sanitize (Outdated.mk "updated" 0 "")
     = Some (helper.mkFieldError "" "无效的值" "outdated.type")
     → "updated" ≠ "created").
Proof.
  split.
  - apply (proj1 (proj2 (proj2 sanitize_accepts))). simpl.
    split; [by left|]. split; [discriminate|reflexivity].
  - intros H.
    destruct (proj2 (proj2 (proj2 sanitize_accepts)) _ _ H)
      as [(_ & Hc & _)|[(Habs & _)|(Hty & _)]].
    + exact Hc.
    + discriminate Habs.
    + destruct Hty as [Hty|Hty]; discriminate Hty.
Defined.

Lemma Init_needs_a_known_driver_witness :
  boot.Init (DB:=string)
    (λ _, inr (boot.mkConfig "MySQL" "root@/blog" "blog_"))
    (λ driver dsn _ _, inr (driver +:+ ":" +:+ dsn))
    (λ _, None)
  = inl (helper.OtherError "不能理解的dbDriver值：MySQL").
Proof.
  apply (proj2 (proj2 (Init_needs_a_known_driver
                         (λ _, inr (boot.mkConfig "MySQL" "root@/blog" "blog_"))
                         (λ driver dsn _ _, inr (driver +:+ ":" +:+ dsn))
                         (λ _, None)))
           (boot.mkConfig "MySQL" "root@/blog" "blog_")).
  - reflexivity.
  - simpl. rewrite !not_elem_of_cons. repeat split; try discriminate.
    apply not_elem_of_nil.
Defined.

(** ** More about [loadLinks] *)
Section LinkMoreFacts.
Variable w : extern.World.
Variable pth : path.Path.

(** X13. [loadLinks] returns a list exactly when the links file decodes to
    that list and every entry of it has a text and an address: the list
    comes back as decoded, in full and in order.  An error of loading the
    file is handed on as it is. *)
Theorem loadLinks_exact :
  (∀ links, loadLinks w pth = inr links ↔
     extern.LoadYAMLLinks w (path.MetaLinksFile pth) = inr links
     ∧ Forall (λ link, Link.Text link ≠ "" ∧ Link.URL link ≠ "") links)
  ∧ (∀ e, extern.LoadYAMLLinks w (path.MetaLinksFile pth) = inl e →
          loadLinks w pth = inl e).
Proof.
  unfold loadLinks. split.
  - intros links.
    destruct (extern.LoadYAMLLinks w _) as [e|decoded]; [split; [done|by intros []]|].
    destruct (sanitizeLinks pth 0 decoded) as [e|] eqn:Hcheck.
    + split; [done|]. intros [Heq Hall]. simplify_eq.
      rewrite <- (sanitizeLinks_None pth 0) in Hall. congruence.
    + rewrite (sanitizeLinks_None pth 0) in Hcheck. split.
      * intros ?. by simplify_eq.
      * intros [? _]. by simplify_eq.
  - by intros e ->.
Qed.

End LinkMoreFacts.

Lemma loadLinks_exact_witness :
  loadLinks (site.world [] (inr site.goodLinks)) site.root = inr site.goodLinks
  ∧ loadLinks (site.world [] (inl (helper.OtherError "yaml: line 3")))
      site.root
    = inl (helper.OtherError "yaml: line 3").
Proof.
  split.
  - apply (proj1 (loadLinks_exact (site.world [] (inr site.goodLinks)) site.root)).
    split; [reflexivity|].
    repeat (first [ apply Forall_nil_2
                  | apply Forall_cons_2; [split; discriminate|] ]).
  - apply (proj2 (loadLinks_exact
                    (site.world [] (inl (helper.OtherError "yaml: line 3")))
                    site.root)).
    reflexivity.
Defined.
